(** * Proxy-transaction detection of the wallet (src/lib/ProxyDetection.ts)

    A shallow embedding of the tag codec ([proxyTransactionIdentifierToExtraData],
    [isProxyData]), the direction classifier ([getProxyAddress]) and the
    correlation matcher ([handleProxyTransaction]), followed by the properties
    of the specification that concern them.

    Conventions of the embedding:
    - JavaScript numbers that hold amounts, heights and timestamps are integers
      and are modelled by [Z]; an optional number ([timestamp?: number]) is an
      [option Z], and its use as a condition is JavaScript truthiness
      (present and not zero).
    - JavaScript strings are modelled by [string], whose characters are the
      code units below 256; [toLowerCase] acts on the ASCII letters (no other
      letter lower-cases to a hexadecimal digit, so the outcome of a
      comparison with a tag is the one of the source). Where the code units
      from 256 on matter, as in the tag of an arbitrary identifier, a string
      is given by the list of its UTF-16 code units.
    - The object [{[transactionHash]: Transaction}] is an association list in
      insertion order, which is the order in which [Object.values] enumerates
      it; the outer object [{[proxyAddress]: ...}] is a finite map.
      Transaction hashes and addresses are not array indices and not names
      of [Object.prototype], so that enumeration is by insertion and a lookup
      finds own properties only.
    - The address store and the proxy store are read through a record
      [Stores]; the call made to the proxy store is returned next to the
      result; a thrown [TypeError] is an outcome of its own. *)

From Stdlib Require Import ZArith List Bool Ascii String Lia.
From stdpp Require Import base strings gmap list.

Import ListNotations.
Local Open Scope string_scope.
Local Open Scope Z_scope.

(** ** Data model *)

Inductive ProxyType := CASHLINK | HTLC_PROXY.

Inductive ProxyTransactionDirection := FUND | REDEEM.

(** Modelled from the spec: the [TransactionState] enumeration of the
    transaction store ([@/stores/Transactions]), whose declaration is not part
    of the sources at hand. *)
Inductive TransactionState := NEW | PENDING | CONFIRMED | INVALIDATED | EXPIRED.

Record TransactionData := { raw : string }.

(** Modelled from the spec: the fields of [Transaction] that the detection
    code reads; the type is declared in the transaction store. *)
Record Transaction := {
  transactionHash : string;
  sender : string;
  recipient : string;
  value : Z;
  fee : Z;
  timestamp : option Z;
  blockHeight : option Z;
  validityStartHeight : Z;
  state : TransactionState;
  relatedTransactionHash : option string;
  data : TransactionData;
}.

#[global] Instance ProxyType_eq_dec : EqDecision ProxyType.
Proof. solve_decision. Defined.

#[global] Instance ProxyTransactionDirection_eq_dec : EqDecision ProxyTransactionDirection.
Proof. solve_decision. Defined.

#[global] Instance TransactionState_eq_dec : EqDecision TransactionState.
Proof. solve_decision. Defined.

#[global] Instance TransactionData_eq_dec : EqDecision TransactionData.
Proof. solve_decision. Defined.

#[global] Instance Transaction_eq_dec : EqDecision Transaction.
Proof. solve_decision. Defined.

(** The stores the code reads: the keys of [addresses$.addressInfos] and the
    array [allProxies.value]. *)
Record Stores := {
  addressInfos : gset string;
  allProxies : list string;
}.

(** The call made to the proxy store at the end of [handleProxyTransaction]. *)
Inductive ProxyStoreCall :=
  | addFundedProxy (proxyAddress : string)
  | addClaimedProxy (proxyAddress : string)
  | removeProxy (proxyAddress : string).

Inductive Outcome (A : Type) :=
  | Returns (a : A)
  | ThrowsTypeError.
Arguments Returns {A} a.
Arguments ThrowsTypeError {A}.

(** ** JavaScript primitives *)

Module Js.

(** Truthiness of an optional number: [undefined], and [0], are falsy. *)
Definition truthyNumber (n : option Z) : bool :=
  match n with
  | Some v => negb (v =? 0)%Z
  | None => false
  end.

(** Truthiness of an optional string: [undefined], and [''], are falsy. *)
Definition truthyString (s : option string) : bool :=
  match s with
  | Some v => negb (String.eqb v "")
  | None => false
  end.

(** The number read from an optional field after its truthiness test. *)
Definition number (n : option Z) : Z := default 0%Z n.

(** [c.charCodeAt(0)] for a character of a modelled string, a code unit
    below 256. In JavaScript a code unit may be any number below 65536; the
    identifiers of the source are ASCII. *)
Definition charCodeAt0 (c : ascii) : Z := Z.of_N (N_of_ascii c).

Definition split_chars (s : string) : list ascii := list_ascii_of_string s.

(** Conversion of an element to the element type of a [Uint8Array]. *)
Definition toUint8 (n : Z) : Z := n mod 256.

Definition hexDigit (d : Z) : ascii :=
  if (d <? 10)%Z then ascii_of_N (Z.to_N (48 + d)) else ascii_of_N (Z.to_N (87 + d)).

Fixpoint toString16_digits (fuel : nat) (n : Z) (acc : string) : string :=
  match fuel with
  | O => acc
  | S fuel' =>
      let acc' := String (hexDigit (n mod 16)) acc in
      if (n / 16 =? 0)%Z then acc' else toString16_digits fuel' (n / 16) acc'
  end.

(** [Number.prototype.toString(16)] on a non-negative integer. *)
Definition toString16 (n : Z) : string :=
  toString16_digits (S (Z.to_nat (Z.log2 n))) n "".

Fixpoint repeat_char (c : ascii) (n : nat) : string :=
  match n with
  | O => ""
  | S n' => String c (repeat_char c n')
  end.

(** [String.prototype.padStart] with a one-character filler. *)
Definition padStart (targetLength : nat) (c : ascii) (s : string) : string :=
  repeat_char c (targetLength - String.length s) ++ s.

Definition lowerChar (c : ascii) : ascii :=
  let n := N_of_ascii c in
  if ((65 <=? n) && (n <=? 90))%N then ascii_of_N (n + 32) else c.

Fixpoint toLowerCase (s : string) : string :=
  match s with
  | EmptyString => EmptyString
  | String c s' => String (lowerChar c) (toLowerCase s')
  end.

Fixpoint toUpperCase (s : string) : string :=
  match s with
  | EmptyString => EmptyString
  | String c s' =>
      let n := N_of_ascii c in
      String (if ((97 <=? n) && (n <=? 122))%N then ascii_of_N (n - 32) else c)
             (toUpperCase s')
  end.

End Js.

(** ** Tag codec (lines 15-46) *)

Definition proxyTransactionIdentifierToExtraData (identifier : string) : string :=
  let extraData : list Z :=
    map Js.toUint8 (0%Z :: map (fun c => (Js.charCodeAt0 c + 63)%Z) (Js.split_chars identifier)) in
  fold_left (fun hex value => hex ++ Js.padStart 2 "0" (Js.toString16 value)) extraData "".

(** [proxyTransactionIdentifierToExtraData] on an identifier given by its
    UTF-16 code units, the values of [c.charCodeAt(0)] for the elements of
    [identifier.split('')]: any numbers below 65536. *)
Definition extraDataOfCodeUnits (codeUnits : list Z) : string :=
  let extraData : list Z :=
    map Js.toUint8 (0%Z :: map (fun code => (code + 63)%Z) codeUnits) in
  fold_left (fun hex value => hex ++ Js.padStart 2 "0" (Js.toString16 value)) extraData "".

Definition ProxyExtraData (type : ProxyType) (dir : ProxyTransactionDirection) : string :=
  match type, dir with
  | CASHLINK, FUND => proxyTransactionIdentifierToExtraData "CASH"
  | CASHLINK, REDEEM => proxyTransactionIdentifierToExtraData "LINK"
  | HTLC_PROXY, FUND => proxyTransactionIdentifierToExtraData "HPFD"
  | HTLC_PROXY, REDEEM => proxyTransactionIdentifierToExtraData "HPRD"
  end.

Definition isProxyData (data : string) (proxyType : option ProxyType)
    (transactionDirection : option ProxyTransactionDirection) : bool :=
  let data := Js.toLowerCase data in
  let proxyTypesToCheck :=
    match proxyType with Some t => [t] | None => [CASHLINK; HTLC_PROXY] end in
  let directionsToCheck :=
    match transactionDirection with Some d => [d] | None => [FUND; REDEEM] end in
  existsb (fun type =>
    existsb (fun dir => String.eqb (ProxyExtraData type dir) data) directionsToCheck)
    proxyTypesToCheck.

(** ** Direction classifier (lines 49-57) *)

(** [!!addresses$.addressInfos[address]]: an entry of the address store is an
    object, so the test is the presence of the key. *)
Definition hasAddressInfo (stores : Stores) (address : string) : bool :=
  bool_decide (address ∈ addressInfos stores).

(** The local [isFunding] of [getProxyAddress]. *)
Definition getProxyAddress_isFunding (stores : Stores) (tx : Transaction) : bool :=
  isProxyData (raw (data tx)) None (Some FUND)
  || hasAddressInfo stores (sender tx)
  || existsb (fun proxy => String.eqb (recipient tx) proxy) (allProxies stores).

Definition getProxyAddress (stores : Stores) (tx : Transaction) : string :=
  if getProxyAddress_isFunding stores tx then recipient tx else sender tx.

(** ** Correlation matcher (lines 59-184) *)

(** [{[transactionHash: string]: Transaction}], in insertion order. *)
Definition TransactionsByHash := list (string * Transaction).

Definition Object_values (o : TransactionsByHash) : list Transaction := map snd o.

(** The predicate of the [filter] that builds [potentialRelatedTxs]
    (lines 86-132). *)
Definition isPotentialRelatedTx (stores : Stores) (tx : Transaction)
    (proxyAddress : string) (isCashlink isFunding : bool) (proxyTx : Transaction) : bool :=
  negb (Js.truthyString (relatedTransactionHash proxyTx))
  && negb (bool_decide (state proxyTx = INVALIDATED))
  && negb (bool_decide (state proxyTx = EXPIRED))
  && (hasAddressInfo stores (sender tx) || hasAddressInfo stores (recipient tx)
      || hasAddressInfo stores (sender proxyTx) || hasAddressInfo stores (recipient proxyTx))
  && (if isFunding
      then
        String.eqb (sender proxyTx) proxyAddress
        && (if Js.truthyNumber (timestamp tx) && Js.truthyNumber (timestamp proxyTx)
            then Js.number (timestamp tx) <? Js.number (timestamp proxyTx)
            else if Js.truthyNumber (blockHeight tx) && Js.truthyNumber (blockHeight proxyTx)
            then Js.number (blockHeight tx) <? Js.number (blockHeight proxyTx)
            else validityStartHeight tx <=? validityStartHeight proxyTx)
        && (if isCashlink
            then value tx >=? value proxyTx + fee proxyTx
            else value tx =? value proxyTx + fee proxyTx)
      else
        String.eqb (recipient proxyTx) proxyAddress
        && (if Js.truthyNumber (timestamp tx) && Js.truthyNumber (timestamp proxyTx)
            then Js.number (timestamp tx) >? Js.number (timestamp proxyTx)
            else if Js.truthyNumber (blockHeight tx) && Js.truthyNumber (blockHeight proxyTx)
            then Js.number (blockHeight tx) >? Js.number (blockHeight proxyTx)
            else validityStartHeight tx >=? validityStartHeight proxyTx)
        && (if isCashlink
            then value tx + fee tx <=? value proxyTx
            else value tx + fee tx =? value proxyTx)).

Definition potentialRelatedTxs (stores : Stores) (tx : Transaction)
    (proxyAddress : string) (isCashlink isFunding : bool)
    (proxyTransactions : list Transaction) : list Transaction :=
  List.filter (isPotentialRelatedTx stores tx proxyAddress isCashlink isFunding)
    proxyTransactions.

Definition isCloser (isFunding : bool) (checkedValue currentBest : Z) : bool :=
  if isFunding then checkedValue <? currentBest else checkedValue >? currentBest.

(** The condition of the [if] in the loop, for a [relatedTx] that is set
    (lines 144-148). *)
Definition closerThanBest (isFunding : bool) (relatedTx potentialRelatedTx : Transaction) : bool :=
  if Js.truthyNumber (timestamp relatedTx) && Js.truthyNumber (timestamp potentialRelatedTx)
  then isCloser isFunding (Js.number (timestamp potentialRelatedTx))
         (Js.number (timestamp relatedTx))
  else if Js.truthyNumber (blockHeight relatedTx)
          && Js.truthyNumber (blockHeight potentialRelatedTx)
  then isCloser isFunding (Js.number (blockHeight potentialRelatedTx))
         (Js.number (blockHeight relatedTx))
  else isCloser isFunding (validityStartHeight potentialRelatedTx)
         (validityStartHeight relatedTx).

(** One iteration of [for (const potentialRelatedTx of potentialRelatedTxs)]. *)
Definition pickStep (isFunding : bool) (relatedTx : option Transaction)
    (potentialRelatedTx : Transaction) : option Transaction :=
  match relatedTx with
  | None => Some potentialRelatedTx
  | Some best =>
      if closerThanBest isFunding best potentialRelatedTx
      then Some potentialRelatedTx
      else Some best
  end.

Definition pickClosest (isFunding : bool) (candidates : list Transaction) : option Transaction :=
  fold_left (pickStep isFunding) candidates None.

(** The heuristic search: the [else] branch of [if (tx.relatedTransactionHash)]. *)
Definition heuristicSearch (stores : Stores) (tx : Transaction) (proxyAddress : string)
    (proxyTransactions : list Transaction) : option Transaction :=
  let isCashlink := isProxyData (raw (data tx)) (Some CASHLINK) None in
  let isFunding := String.eqb proxyAddress (recipient tx) in
  pickClosest isFunding
    (potentialRelatedTxs stores tx proxyAddress isCashlink isFunding proxyTransactions).

(** The value of [relatedTx] after the [if]/[else]. *)
Definition findRelatedTx (stores : Stores) (tx : Transaction) (proxyAddress : string)
    (proxyTransactions : list Transaction) : option Transaction :=
  if Js.truthyString (relatedTransactionHash tx)
  then List.find (fun proxyTx =>
         bool_decide (Some (transactionHash proxyTx) = relatedTransactionHash tx))
         proxyTransactions
  else heuristicSearch stores tx proxyAddress proxyTransactions.

(** [needToSubscribeToProxy] (lines 157-168); [relatedTx!] is read only when
    [relatedTx] is set. *)
Definition needToSubscribeToProxy (stores : Stores) (tx : Transaction)
    (relatedTx : option Transaction) (proxyTransactions : list Transaction) : bool :=
  match relatedTx with
  | None => true
  | Some related =>
      existsb (fun proxyTx =>
        (negb (Js.truthyString (relatedTransactionHash proxyTx))
         && negb (String.eqb (transactionHash proxyTx) (transactionHash tx))
         && negb (String.eqb (transactionHash proxyTx) (transactionHash related)))
        || (negb (bool_decide (state proxyTx = CONFIRMED))
            && negb (hasAddressInfo stores (sender proxyTx))
            && negb (hasAddressInfo stores (recipient proxyTx))))
        proxyTransactions
  end.

(** The call to the proxy store (lines 170-181). *)
Definition proxyStoreCall (needToSubscribe isFunding : bool) (proxyAddress : string)
    : ProxyStoreCall :=
  if needToSubscribe
  then if isFunding then addFundedProxy proxyAddress else addClaimedProxy proxyAddress
  else removeProxy proxyAddress.

Record HandleResult := {
  returned : option Transaction;
  needsSubscription : bool;
  storeCall : ProxyStoreCall;
}.

(** [Object.values(knownProxyTransactions[proxyAddress]) || [tx]]:
    [Object.values] throws a [TypeError] on [undefined], and what it returns
    is an array, which is truthy, so that the right operand is never used. *)
Definition handleProxyTransaction (stores : Stores) (tx : Transaction)
    (knownProxyTransactions : gmap string TransactionsByHash) : Outcome HandleResult :=
  let proxyAddress := getProxyAddress stores tx in
  match knownProxyTransactions !! proxyAddress with
  | None => ThrowsTypeError
  | Some byHash =>
      let proxyTransactions := Object_values byHash in
      let isFunding := String.eqb proxyAddress (recipient tx) in
      let relatedTx := findRelatedTx stores tx proxyAddress proxyTransactions in
      let needToSubscribe := needToSubscribeToProxy stores tx relatedTx proxyTransactions in
      Returns {| returned := relatedTx;
                 needsSubscription := needToSubscribe;
                 storeCall := proxyStoreCall needToSubscribe isFunding proxyAddress |}
  end.

(** ** Vocabulary of the properties *)

(** The field on which two transactions are compared: the first one, in the
    order timestamp, block height, validity start height, that is truthy on
    both sides. *)
Inductive OrderingField := ByTimestamp | ByBlockHeight | ByValidityStartHeight.

Definition selectedField (a b : Transaction) : OrderingField :=
  if Js.truthyNumber (timestamp a) && Js.truthyNumber (timestamp b) then ByTimestamp
  else if Js.truthyNumber (blockHeight a) && Js.truthyNumber (blockHeight b) then ByBlockHeight
  else ByValidityStartHeight.

Definition fieldValue (f : OrderingField) (t : Transaction) : Z :=
  match f with
  | ByTimestamp => Js.number (timestamp t)
  | ByBlockHeight => Js.number (blockHeight t)
  | ByValidityStartHeight => validityStartHeight t
  end.

(** The amount check in the words of the specification. *)
Definition spec_amountCheck (isCashlink isFunding : bool) (tx candidate : Transaction) : Prop :=
  match isCashlink, isFunding with
  | true, true => value tx >= value candidate + fee candidate
  | true, false => value tx + fee tx <= value candidate
  | false, true => value tx = value candidate + fee candidate
  | false, false => value tx + fee tx = value candidate
  end.

(** The role check: a funding [tx] looks for a redeeming candidate, and
    conversely. *)
Definition spec_roleCheck (isFunding : bool) (proxyAddress : string) (candidate : Transaction) : Prop :=
  if isFunding then sender candidate = proxyAddress else recipient candidate = proxyAddress.

(** The chronological check of the candidate filter, as the code has it:
    strict on timestamps and block heights, and not strict on validity start
    heights. *)
Definition chronologicalCheck (isFunding : bool) (tx candidate : Transaction) : Prop :=
  match selectedField tx candidate, isFunding with
  | ByValidityStartHeight, true => validityStartHeight tx <= validityStartHeight candidate
  | ByValidityStartHeight, false => validityStartHeight tx >= validityStartHeight candidate
  | f, true => fieldValue f tx < fieldValue f candidate
  | f, false => fieldValue f tx > fieldValue f candidate
  end.


(** A candidate is closer than another one on a field. *)
Definition closerOn (isFunding : bool) (f : OrderingField) (c best : Transaction) : Prop :=
  if isFunding then fieldValue f c < fieldValue f best else fieldValue f c > fieldValue f best.

(** At least one of the four addresses is one of ours. *)
Definition someAddressOwned (stores : Stores) (tx candidate : Transaction) : Prop :=
  sender tx ∈ addressInfos stores ∨ recipient tx ∈ addressInfos stores
  ∨ sender candidate ∈ addressInfos stores ∨ recipient candidate ∈ addressInfos stores.

(** The tag encoding in the words of the specification. *)
Definition spec_identifier (type : ProxyType) (dir : ProxyTransactionDirection) : string :=
  match type, dir with
  | CASHLINK, FUND => "CASH"
  | CASHLINK, REDEEM => "LINK"
  | HTLC_PROXY, FUND => "HPFD"
  | HTLC_PROXY, REDEEM => "HPRD"
  end.

Definition spec_lowerHexDigit (d : Z) : ascii :=
  nth (Z.to_nat d) (list_ascii_of_string "0123456789abcdef") "0"%char.

Definition spec_twoHexDigits (byte : Z) : string :=
  String (spec_lowerHexDigit (byte / 16)) (String (spec_lowerHexDigit (byte mod 16)) "").

Definition spec_hexOfBytes (bytes : list Z) : string :=
  fold_right String.append "" (map spec_twoHexDigits bytes).

Definition spec_tagBytes (identifier : string) : list Z :=
  0 :: map (fun c => Js.charCodeAt0 c + 63) (list_ascii_of_string identifier).

(** ** Scenarios *)

Module Scenario.

Definition mkTx (hash from to : string) (amount txFee : Z) (time height : option Z)
    (start : Z) (st : TransactionState) (related : option string) (extra : string)
    : Transaction :=
  {| transactionHash := hash; sender := from; recipient := to;
     value := amount; fee := txFee; timestamp := time; blockHeight := height;
     validityStartHeight := start; state := st;
     relatedTransactionHash := related; data := {| raw := extra |} |}.

Definition proxy : string := "NQ07 PROXY".
Definition alice : string := "NQ11 ALICE".
Definition bob : string := "NQ22 BOB".

(** Alice's wallet: her address is the only one of ours, no proxy is tracked. *)
Definition wallet : Stores := {| addressInfos := {[ alice ]}; allProxies := [] |}.

(** Bob's wallet, on the receiving side. *)
Definition walletOfBob : Stores := {| addressInfos := {[ bob ]}; allProxies := [] |}.

Definition tagCASH : string := "0082809287".
Definition tagLINK : string := "008b888d8a".
Definition tagHPFD : string := "00878f8583".
Definition tagHPRD : string := "00878f9183".

(** The store with the given transactions, in this order, at the proxy. *)
Definition knownAt (address : string) (txs : list Transaction) : gmap string TransactionsByHash :=
  {[ address := map (fun t => (transactionHash t, t)) txs ]}.

(** A confirmed transaction from Alice to the proxy, without fee. *)
Definition funding (hash : string) (amount time height : Z) (tag : string) : Transaction :=
  mkTx hash alice proxy amount 0 (Some time) (Some height) (height - 1) CONFIRMED None tag.

(** A confirmed transaction from the proxy to Bob. *)
Definition redeeming (hash : string) (amount txFee time height : Z) (tag : string) : Transaction :=
  mkTx hash proxy bob amount txFee (Some time) (Some height) (height - 1) CONFIRMED None tag.

(** A transaction that is not mined yet: no timestamp and no block height. *)
Definition pendingTx (hash from to : string) (amount start : Z) : Transaction :=
  mkTx hash from to amount 0 None None start PENDING None "".

(** Partial and exact redemption: F funds the proxy with 100, R redeems. *)
Definition F (tag : string) : Transaction := funding "F" 100 1000 10 tag.
Definition R (amount txFee : Z) (tag : string) : Transaction :=
  redeeming "R" amount txFee 2000 20 tag.

(** Two fundings of 100 and one redeemer of 100. *)
Definition F1 : Transaction := funding "F1" 100 1000 10 tagHPFD.
Definition F2 : Transaction := funding "F2" 100 1500 15 tagHPFD.

(** One funding of 100 and two later redeemers of 100. *)
Definition R1 : Transaction := redeeming "R1" 100 0 2000 20 tagHPRD.
Definition R2 : Transaction := redeeming "R2" 100 0 3000 30 tagHPRD.

(** Redeemers compared on different fields: Z, Y and X are mined in this
    order, Z with the latest validity start height and Y with the earliest;
    A is still pending. *)
Definition T : Transaction := funding "T" 100 50 2 "".
Definition Z : Transaction :=
  mkTx "Z" proxy bob 100 0 (Some 100) (Some 10) 9 CONFIRMED None "".
Definition Y : Transaction :=
  mkTx "Y" proxy bob 100 0 (Some 110) (Some 11) 1 CONFIRMED None "".
Definition A : Transaction := pendingTx "A" proxy bob 100 5.
Definition X : Transaction :=
  mkTx "X" proxy bob 100 0 (Some 120) (Some 12) 3 CONFIRMED None "".

(** Two pending transactions with the same validity start height. *)
Definition P : Transaction := pendingTx "P" alice proxy 100 50.
Definition Q : Transaction := pendingTx "Q" proxy bob 100 50.

(** Two redeemers with the same timestamp. *)
Definition R3 : Transaction := redeeming "R3" 100 0 2000 20 "".
Definition R4 : Transaction := redeeming "R4" 100 0 2000 20 "".

(** F and R once the store has linked them to each other. *)
Definition linkedF : Transaction :=
  mkTx "F" alice proxy 100 0 (Some 1000) (Some 10) 9 CONFIRMED (Some "R") tagCASH.
Definition linkedR : Transaction :=
  mkTx "R" proxy bob 100 0 (Some 2000) (Some 20) 19 CONFIRMED (Some "F") tagLINK.

(** A pending transaction, without fee, from one of our addresses to itself. *)
Definition selfTx : Transaction := pendingTx "S" alice alice 100 50.

End Scenario.

(** * The staking store (src/stores/Staking.ts, lines 1-243)

    The getters and actions that work on [stakeByAddress] and
    [stakingEventsByAddress]. These [Record<string, ...>] objects are only
    ever looked up by key or rebuilt entry by entry, and are finite maps here.
    The [validators] part of the state, whose values hold percentages, is read
    and written by none of the functions below and is left out. Balances and
    event values are amounts in the smallest unit, hence integers. *)

Module Staking.

Record Stake := {
  address : string;
  activeBalance : Z;
  inactiveBalance : Z;
  inactiveRelease : option Z;
  validator : option string;
  retiredBalance : Z;
}.

Record AddStakeEvent := {
  sender_address : string;
  date : string;
  eventValue : Z;
  type : Z;
}.

Record StakingState := {
  stakeByAddress : gmap string Stake;
  stakingEventsByAddress : gmap string (list AddStakeEvent);
}.

(** [Partial<Omit<Stake, 'address'>>]: a property that is present holds a
    value of the type of the field; for the two optional fields this value
    may be [undefined]. *)
Record StakePatch := {
  patchActiveBalance : option Z;
  patchInactiveBalance : option Z;
  patchInactiveRelease : option (option Z);
  patchValidator : option (option string);
  patchRetiredBalance : option Z;
}.

(** Modelled from the spec: what the getters read of an [AccountInfo] of
    the account store, whose declaration is not part of the sources at
    hand. *)
Record AccountInfo := {
  id : string;
  addresses : list string;
}.

(** [stake.activeBalance + stake.inactiveBalance + stake.retiredBalance]. *)
Definition stakeTotal (stake : Stake) : Z :=
  activeBalance stake + inactiveBalance stake + retiredBalance stake.

(** The loop of [totalStakesByAddress] and of [totalStakesByAccount] over
    [Object.entries]: one total for each entry. *)
Definition totalsOfEntries (stakes : gmap string Stake) : gmap string Z :=
  foldr (fun entry totals => <[entry.1 := stakeTotal entry.2]> totals) ∅ (map_to_list stakes).

Definition totalStakesByAddress (state : StakingState) : gmap string Z :=
  totalsOfEntries (stakeByAddress state).

Definition activeStake (state : StakingState) (activeAddress : option string) : option Stake :=
  if negb (Js.truthyString activeAddress) then None
  else stakeByAddress state !! default "" activeAddress.

Definition totalActiveStake (state : StakingState) (activeAddress : option string) : Z :=
  match activeStake state activeAddress with
  | Some stake => stakeTotal stake
  | None => 0
  end.

(** [stakes[accountInfo.id].activeBalance += ...], and so on for the two
    other balances, on the copy held for the account. *)
Definition addBalances (accountStake stake : Stake) : Stake :=
  {| address := address accountStake;
     activeBalance := activeBalance accountStake + activeBalance stake;
     inactiveBalance := inactiveBalance accountStake + inactiveBalance stake;
     inactiveRelease := inactiveRelease accountStake;
     validator := validator accountStake;
     retiredBalance := retiredBalance accountStake + retiredBalance stake |}.

(** The body of [for (const address of accountInfo.addresses)]. *)
Definition cumulateAddress (state : StakingState) (accountId : string)
    (stakes : gmap string Stake) (addr : string) : gmap string Stake :=
  match stakeByAddress state !! addr with
  | Some stake =>
      match stakes !! accountId with
      | None => <[accountId := stake]> stakes
      | Some accountStake => <[accountId := addBalances accountStake stake]> stakes
      end
  | None => stakes
  end.

(** The body of [for (const accountInfo of accounts)]. *)
Definition cumulateAccount (state : StakingState) (stakes : gmap string Stake)
    (accountInfo : AccountInfo) : gmap string Stake :=
  let stakes' := fold_left (cumulateAddress state (id accountInfo)) (addresses accountInfo) stakes in
  match stakes' !! id accountInfo with
  | None =>
      <[id accountInfo := {| address := id accountInfo; activeBalance := 0;
                             inactiveBalance := 0; inactiveRelease := None;
                             validator := None; retiredBalance := 0 |}]> stakes'
  | Some _ => stakes'
  end.

(** [accounts] is [Object.values(accountInfos.value)]. *)
Definition stakesByAccount (state : StakingState) (accounts : list AccountInfo)
    : gmap string Stake :=
  fold_left (cumulateAccount state) accounts ∅.

Definition totalStakesByAccount (state : StakingState) (accounts : list AccountInfo)
    : gmap string Z :=
  totalsOfEntries (stakesByAccount state accounts).

Definition accountStake (state : StakingState) (accounts : list AccountInfo)
    (activeAccountId : option string) : option Stake :=
  if negb (Js.truthyString activeAccountId) then None
  else stakesByAccount state accounts !! default "" activeAccountId.

Definition totalAccountStake (state : StakingState) (accounts : list AccountInfo)
    (activeAccountId : option string) : Z :=
  if negb (Js.truthyString activeAccountId) then 0
  else default 0 (totalStakesByAccount state accounts !! default "" activeAccountId).

Definition stakingEvents (state : StakingState) (activeAddress : option string)
    : option (list AddStakeEvent) :=
  if negb (Js.truthyString activeAddress) then None
  else stakingEventsByAddress state !! default "" activeAddress.

Definition restakingRewards (state : StakingState) (activeAddress : option string)
    : option Z :=
  match stakingEvents state activeAddress with
  | None => None
  | Some events =>
      let addStakeEvents := List.filter (fun event => type event =? 6) events in
      Some (fold_left (fun sum event => sum + eventValue event) addStakeEvents 0)
  end.

Definition setStake (stake : Stake) (state : StakingState) : StakingState :=
  {| stakeByAddress := <[address stake := stake]> (stakeByAddress state);
     stakingEventsByAddress := stakingEventsByAddress state |}.

Definition setStakes (stakes : list Stake) (state : StakingState) : StakingState :=
  let newStakes :=
    fold_left (fun newStakes stake => <[address stake := stake]> newStakes) stakes ∅ in
  {| stakeByAddress := newStakes;
     stakingEventsByAddress := stakingEventsByAddress state |}.

(** [{ ...this.state.stakeByAddress[address], ...patch }]. *)
Definition applyPatch (stake : Stake) (patch : StakePatch) : Stake :=
  {| address := address stake;
     activeBalance := default (activeBalance stake) (patchActiveBalance patch);
     inactiveBalance := default (inactiveBalance stake) (patchInactiveBalance patch);
     inactiveRelease := default (inactiveRelease stake) (patchInactiveRelease patch);
     validator := default (validator stake) (patchValidator patch);
     retiredBalance := default (retiredBalance stake) (patchRetiredBalance patch) |}.

Definition patchStake (addr : string) (patch : StakePatch) (state : StakingState)
    : StakingState :=
  match stakeByAddress state !! addr with
  | None => state
  | Some stake => setStake (applyPatch stake patch) state
  end.

Definition removeStake (addr : string) (state : StakingState) : StakingState :=
  {| stakeByAddress := delete addr (stakeByAddress state);
     stakingEventsByAddress := stakingEventsByAddress state |}.

Definition setStakingEvents (addr : string) (events : list AddStakeEvent)
    (state : StakingState) : StakingState :=
  {| stakeByAddress := stakeByAddress state;
     stakingEventsByAddress := <[addr := events]> (stakingEventsByAddress state) |}.

(** Every stake is stored under its own address. *)
Definition keyedByAddress (state : StakingState) : Prop :=
  ∀ key stake, stakeByAddress state !! key = Some stake → address stake = key.

(** The total staked at an address, zero without a stake. *)
Definition totalAt (state : StakingState) (addr : string) : Z :=
  from_option stakeTotal 0 (stakeByAddress state !! addr).

(** The sum of the totals at the addresses of the accounts named
    [accountId]. *)
Definition totalOfAccounts (state : StakingState) (accountId : string)
    (accounts : list AccountInfo) : Z :=
  fold_right Z.add 0
    (map (fun accountInfo =>
            if String.eqb (id accountInfo) accountId
            then fold_right Z.add 0 (map (totalAt state) (addresses accountInfo))
            else 0)
         accounts).

End Staking.

(** * Bitcoin address subscriptions (src/stores/Staking.ts, lines 306-318
    and 484-564: the Electrum client module that follows the store there)

    The bookkeeping of [subscribeToAddresses] and the three computed lists
    of addresses to subscribe to. The set [subscribedAddresses] of the module
    is passed explicitly; a call to the Electrum client or to the Hub is
    returned next to the result. *)

Module Electrum.

(** Modelled from the spec: the two fields of a [BtcAddressInfo] of the
    Bitcoin address store that the computed lists read. *)
Record BtcAddressInfo := {
  address : string;
  txoCount : Z;
}.

(** [!!addressInfo.txoCount]. *)
Definition used (addressInfo : BtcAddressInfo) : bool :=
  negb (txoCount addressInfo =? 0).

(** The body of the loop of [subscribeToAddresses], on the set and the
    array [newAddresses]. *)
Definition subscribeStep (acc : gset string * list string) (addr : string)
    : gset string * list string :=
  if bool_decide (addr ∈ acc.1) then acc
  else ({[addr]} ∪ acc.1, (acc.2 ++ [addr])%list).

(** [subscribeToAddresses]: the set afterwards, and the addresses for which
    a transaction listener is added at the client, if any. *)
Definition subscribeToAddresses (subscribedAddresses : gset string) (addrs : list string)
    : gset string * option (list string) :=
  let result := fold_left subscribeStep addrs (subscribedAddresses, []) in
  (result.1, if Nat.eqb (length result.2) 0 then None else Some result.2).

(** The callback of the [filter] of [unusedExternalAddresses], on the
    counter [gap] and the elements kept so far. *)
Definition gapStep (gapLimit : Z) (acc : Z * list BtcAddressInfo)
    (addressInfo : BtcAddressInfo) : Z * list BtcAddressInfo :=
  if acc.1 >=? gapLimit then acc
  else if used addressInfo then (0, acc.2)
  else (acc.1 + 1, (acc.2 ++ [addressInfo])%list).

Definition gapFilter (gapLimit : Z) (external : list BtcAddressInfo)
    : Z * list BtcAddressInfo :=
  fold_left (gapStep gapLimit) external (0, []).

(** [unusedExternalAddresses], for the constant [BTC_ADDRESS_GAP] taken as
    [gapLimit]: [None] is [null]; otherwise the addresses, and the number of
    addresses asked from the Hub by [addBtcAddresses], if it is called. *)
Definition unusedExternalAddresses (gapLimit : Z) (isFetchingTxHistory : bool)
    (external : list BtcAddressInfo) : option (list string * option Z) :=
  if isFetchingTxHistory then None
  else if Nat.eqb (length external) 0 then None
  else
    let result := gapFilter gapLimit external in
    Some (map address result.2,
          if result.1 <? gapLimit then Some (gapLimit - result.1) else None).

(** The body of the loop of [maybeReusedExternalAddresses]. *)
Definition reusedStep (gapLimit : Z) (addrs : list string) (addressInfo : BtcAddressInfo)
    : list string :=
  if negb (used addressInfo) then addrs
  else if (Z.of_nat (length addrs) <? gapLimit * 2) || (txoCount addressInfo >? 1)
  then (addrs ++ [address addressInfo])%list
  else addrs.

Definition maybeReusedExternalAddresses (gapLimit : Z) (isFetchingTxHistory : bool)
    (external : list BtcAddressInfo) : option (list string) :=
  if isFetchingTxHistory then None
  else if Nat.eqb (length external) 0 then None
  else Some (fold_left (reusedStep gapLimit) (rev external) []).

(** [nextUnusedChangeAddress]: [None] is the [undefined] returned at once;
    otherwise the first unused address, if any, and whether new addresses
    are asked from the Hub. *)
Definition nextUnusedChangeAddress (isFetchingTxHistory : bool)
    (internal : list BtcAddressInfo) : option (option string * bool) :=
  if isFetchingTxHistory then None
  else if Nat.eqb (length internal) 0 then None
  else
    let unusedAddresses :=
      map address (List.filter (fun addressInfo => negb (used addressInfo)) internal) in
    Some (head unusedAddresses, Nat.leb (length unusedAddresses) 2).

End Electrum.

(** * Properties *)

(** ** JavaScript primitives *)

Lemma append_assoc (a b c : string) : ((a ++ b) ++ c = a ++ (b ++ c))%string.
Proof.
  induction a as [|x a IH]; [reflexivity|].
  change (String x ((a ++ b) ++ c) = String x (a ++ (b ++ c)))%string.
  now rewrite IH.
Qed.

Lemma append_empty_r (a : string) : (a ++ "")%string = a.
Proof.
  induction a as [|x a IH]; [reflexivity|].
  change (String x (a ++ "") = String x a)%string.
  now rewrite IH.
Qed.

Lemma truthyString_true (s : option string) :
  Js.truthyString s = true ↔ ∃ v, s = Some v ∧ v ≠ "".
Proof.
  destruct s as [v|]; simpl.
  - rewrite negb_true_iff. split.
    + intros H. exists v. split; [reflexivity|]. intros ->. discriminate.
    + intros (w & [= <-] & Hne). now apply String.eqb_neq.
  - split; [discriminate | intros (v & [=] & _)].
Qed.


(** A byte is printed by [toString(16)] and [padStart(2, '0')] as its two
    lower-case hexadecimal digits. *)
Lemma byte_two_hex_digits (b : Z) :
  0 <= b < 256 → Js.padStart 2 "0" (Js.toString16 b) = spec_twoHexDigits b.
Proof.
  intros Hb.
  assert (Hall : forallb (fun n : nat =>
            String.eqb (Js.padStart 2 "0" (Js.toString16 (Z.of_nat n)))
                       (spec_twoHexDigits (Z.of_nat n))) (seq 0 256) = true)
    by (vm_compute; reflexivity).
  rewrite forallb_forall in Hall.
  specialize (Hall (Z.to_nat b)).
  rewrite Z2Nat.id in Hall by lia.
  apply String.eqb_eq, Hall, in_seq. lia.
Qed.

Lemma toUint8_range (n : Z) : 0 <= Js.toUint8 n < 256.
Proof. unfold Js.toUint8. apply Z.mod_pos_bound. lia. Qed.

Lemma fold_left_append_hex (g : Z → string) (l : list Z) (acc : string) :
  fold_left (fun hex v => (hex ++ g v)%string) l acc
  = (acc ++ fold_right String.append "" (map g l))%string.
Proof.
  revert acc. induction l as [|v l IH]; intros acc; cbn [fold_left map fold_right].
  - now rewrite append_empty_r.
  - now rewrite IH, append_assoc.
Qed.

(** ** Tag codec *)

(** The hexadecimal string built for an identifier is the rendering, two
    lower-case digits a byte, of the bytes [0] and [charCode + 63] (reduced
    to a byte). *)
Lemma identifier_extra_data_bytes (identifier : string) :
  proxyTransactionIdentifierToExtraData identifier
  = spec_hexOfBytes (map Js.toUint8 (spec_tagBytes identifier)).
Proof.
  unfold proxyTransactionIdentifierToExtraData, spec_hexOfBytes, spec_tagBytes, Js.split_chars.
  rewrite fold_left_append_hex.
  change ("" ++ ?s)%string with s.
  f_equal. apply map_ext_in. intros b Hb.
  apply in_map_iff in Hb as (n & <- & _).
  apply byte_two_hex_digits, toUint8_range.
Qed.

Lemma isProxyData_lowercase (data : string) proxyType direction :
  isProxyData data proxyType direction = true ↔
  ∃ type dir, (proxyType = None ∨ proxyType = Some type)
            ∧ (direction = None ∨ direction = Some dir)
            ∧ Js.toLowerCase data = ProxyExtraData type dir.
Proof.
  unfold isProxyData. rewrite existsb_exists. split.
  - intros (type & Htype & Hdir). apply existsb_exists in Hdir as (dir & Hdir & Heq).
    apply String.eqb_eq in Heq. exists type, dir. repeat split; [| |now symmetry].
    + destruct proxyType as [t|]; [right|now left]. destruct Htype as [->|[]]. reflexivity.
    + destruct direction as [d|]; [right|now left]. destruct Hdir as [->|[]]. reflexivity.
  - intros (type & dir & Htype & Hdir & Heq). exists type. split.
    + destruct Htype as [->| ->]; [destruct type|]; simpl; auto.
    + apply existsb_exists. exists dir. split; [|rewrite Heq; apply String.eqb_refl].
      destruct Hdir as [->| ->]; [destruct dir|]; simpl; auto.
Qed.

(** C5: each of the four stored tags is the hexadecimal string of byte 0
    followed by one byte [charCode + 63] for each character of its identifier
    (CASH, LINK, HPFD, HPRD), two lower-case digits a byte; [isProxyData]
    accepts a tag under the filter of its own kind and direction and under no
    other, and it compares after lower-casing, so that the upper-case
    spelling of a tag is accepted as well. *)
Theorem tag_encoding_bit_exact :
  (∀ type dir,
     ProxyExtraData type dir = spec_hexOfBytes (spec_tagBytes (spec_identifier type dir)))
  ∧ ProxyExtraData CASHLINK FUND = "0082809287"
  ∧ ProxyExtraData CASHLINK REDEEM = "008b888d8a"
  ∧ ProxyExtraData HTLC_PROXY FUND = "00878f8583"
  ∧ ProxyExtraData HTLC_PROXY REDEEM = "00878f9183"
  ∧ (∀ identifier,
       proxyTransactionIdentifierToExtraData identifier
       = spec_hexOfBytes (map Js.toUint8 (spec_tagBytes identifier)))
  ∧ (∀ type dir, isProxyData (ProxyExtraData type dir) (Some type) (Some dir) = true)
  ∧ (∀ type dir type' dir',
       isProxyData (ProxyExtraData type dir) (Some type') (Some dir')
       = bool_decide (type' = type) && bool_decide (dir' = dir))
  ∧ (∀ type dir type', isProxyData (ProxyExtraData type dir) (Some type') None
                       = bool_decide (type' = type))
  ∧ (∀ type dir dir', isProxyData (ProxyExtraData type dir) None (Some dir')
                      = bool_decide (dir' = dir))
  ∧ (∀ type dir, isProxyData (ProxyExtraData type dir) None None = true)
  ∧ (∀ data proxyType direction,
       isProxyData data proxyType direction
       = isProxyData (Js.toLowerCase data) proxyType direction)
  ∧ (∀ type dir proxyType direction,
       isProxyData (Js.toUpperCase (ProxyExtraData type dir)) proxyType direction
       = isProxyData (ProxyExtraData type dir) proxyType direction).
Proof.
  repeat apply conj.
  - intros [] []; vm_compute; reflexivity.
  - vm_compute; reflexivity.
  - vm_compute; reflexivity.
  - vm_compute; reflexivity.
  - vm_compute; reflexivity.
  - apply identifier_extra_data_bytes.
  - intros [] []; vm_compute; reflexivity.
  - intros [] [] [] []; vm_compute; reflexivity.
  - intros [] [] []; vm_compute; reflexivity.
  - intros [] [] []; vm_compute; reflexivity.
  - intros [] []; vm_compute; reflexivity.
  - intros data proxyType direction. unfold isProxyData.
    assert (Hidem : ∀ s, Js.toLowerCase (Js.toLowerCase s) = Js.toLowerCase s).
    { induction s as [|c s IH]; simpl; [reflexivity|]. rewrite IH. f_equal.
      unfold Js.lowerChar.
      destruct ((65 <=? N_of_ascii c)%N && (N_of_ascii c <=? 90)%N) eqn:Hc; simpl.
      - apply andb_true_iff in Hc as [H1 H2]. apply N.leb_le in H1, H2.
        rewrite N_ascii_embedding by lia.
        destruct ((65 <=? N_of_ascii c + 32)%N && (N_of_ascii c + 32 <=? 90)%N) eqn:Hc'; [|reflexivity].
        apply andb_true_iff in Hc' as [H3 H4]. apply N.leb_le in H3, H4. lia.
      - now rewrite Hc. }
    now rewrite Hidem.
  - intros [] [] proxyType direction; destruct proxyType as [[]|], direction as [[]|];
      vm_compute; reflexivity.
Qed.

(** ** Direction classifier *)

Lemma hasAddressInfo_true (stores : Stores) (address : string) :
  hasAddressInfo stores address = true ↔ address ∈ addressInfos stores.
Proof. apply bool_decide_eq_true. Qed.

Lemma hasAddressInfo_false (stores : Stores) (address : string) :
  hasAddressInfo stores address = false ↔ address ∉ addressInfos stores.
Proof. apply bool_decide_eq_false. Qed.

Lemma getProxyAddress_isFunding_true (stores : Stores) (tx : Transaction) :
  getProxyAddress_isFunding stores tx = true ↔
    isProxyData (raw (data tx)) None (Some FUND) = true
    ∨ sender tx ∈ addressInfos stores
    ∨ In (recipient tx) (allProxies stores).
Proof.
  unfold getProxyAddress_isFunding.
  rewrite !orb_true_iff, hasAddressInfo_true, existsb_exists.
  split.
  - intros [[H|H]|(proxy & Hin & Heq)]; auto.
    apply String.eqb_eq in Heq. subst. auto.
  - intros [H|[H|H]]; auto.
    right. exists (recipient tx). split; [assumption | apply String.eqb_refl].
Qed.

(** C6: [getProxyAddress] takes [tx] for a funding transaction, and returns
    [tx.recipient], exactly when the extra data is the FUND tag of some proxy
    kind, or [tx.sender] is one of our addresses, or [tx.recipient] is a
    tracked proxy; otherwise it takes it for a redeeming one and returns
    [tx.sender]. A transaction is thus always exactly one of the two. *)
Theorem classification_exclusive (stores : Stores) (tx : Transaction) :
  (getProxyAddress_isFunding stores tx = true ↔
     isProxyData (raw (data tx)) None (Some FUND) = true
     ∨ sender tx ∈ addressInfos stores
     ∨ In (recipient tx) (allProxies stores))
  ∧ (isProxyData (raw (data tx)) None (Some FUND) = true ↔
       ∃ type, Js.toLowerCase (raw (data tx)) = ProxyExtraData type FUND)
  ∧ ((getProxyAddress_isFunding stores tx = true ∧ getProxyAddress stores tx = recipient tx)
     ∨ (getProxyAddress_isFunding stores tx = false ∧ getProxyAddress stores tx = sender tx))
  ∧ ¬ (getProxyAddress_isFunding stores tx = true ∧ getProxyAddress_isFunding stores tx = false)
  ∧ (sender tx ≠ recipient tx →
       String.eqb (getProxyAddress stores tx) (recipient tx) = getProxyAddress_isFunding stores tx).
Proof.
  split; [|split; [|split; [|split]]].
  - apply getProxyAddress_isFunding_true.
  - split.
    + intros H. apply isProxyData_lowercase in H as (type & dir & _ & [[=]|[= <-]] & Heq).
      now exists type.
    + intros (type & Heq). apply isProxyData_lowercase. exists type, FUND. auto.
  - unfold getProxyAddress. destruct (getProxyAddress_isFunding stores tx); auto.
  - intros [H1 H2]. congruence.
  - intros Hne. unfold getProxyAddress.
    destruct (getProxyAddress_isFunding stores tx).
    + apply String.eqb_refl.
    + now apply String.eqb_neq.
Qed.

(** ** Candidate filter *)

Lemma isCloser_true (isFunding : bool) (a b : Z) :
  isCloser isFunding a b = true ↔ if isFunding then a < b else b < a.
Proof. unfold isCloser. destruct isFunding; [apply Z.ltb_lt | apply Z.gtb_lt]. Qed.

Lemma isCloser_false (isFunding : bool) (a b : Z) :
  isCloser isFunding a b = false ↔ if isFunding then b <= a else a <= b.
Proof.
  unfold isCloser. destruct isFunding.
  - apply Z.ltb_ge.
  - rewrite Z.gtb_ltb. apply Z.ltb_ge.
Qed.

(** The predicate of the filter, check by check. *)
Lemma isPotentialRelatedTx_true stores tx proxyAddress isCashlink isFunding c :
  isPotentialRelatedTx stores tx proxyAddress isCashlink isFunding c = true ↔
    Js.truthyString (relatedTransactionHash c) = false
    ∧ state c ≠ INVALIDATED
    ∧ state c ≠ EXPIRED
    ∧ someAddressOwned stores tx c
    ∧ spec_roleCheck isFunding proxyAddress c
    ∧ chronologicalCheck isFunding tx c
    ∧ spec_amountCheck isCashlink isFunding tx c.
Proof.
  unfold isPotentialRelatedTx, someAddressOwned, spec_roleCheck, chronologicalCheck,
    spec_amountCheck, selectedField.
  destruct isFunding, isCashlink;
    destruct (Js.truthyNumber (timestamp tx) && Js.truthyNumber (timestamp c));
    destruct (Js.truthyNumber (blockHeight tx) && Js.truthyNumber (blockHeight c));
    cbn [fieldValue];
    rewrite ?andb_true_iff, ?orb_true_iff, ?negb_true_iff, ?bool_decide_eq_false,
      ?hasAddressInfo_true, ?String.eqb_eq, ?Z.ltb_lt, ?Z.leb_le, ?Z.gtb_lt,
      ?Z.geb_le, ?Z.eqb_eq;
    intuition lia.
Qed.

Lemma potentialRelatedTxs_In stores tx proxyAddress isCashlink isFunding txs c :
  In c (potentialRelatedTxs stores tx proxyAddress isCashlink isFunding txs) ↔
    In c txs
    ∧ Js.truthyString (relatedTransactionHash c) = false
    ∧ state c ≠ INVALIDATED
    ∧ state c ≠ EXPIRED
    ∧ someAddressOwned stores tx c
    ∧ spec_roleCheck isFunding proxyAddress c
    ∧ chronologicalCheck isFunding tx c
    ∧ spec_amountCheck isCashlink isFunding tx c.
Proof.
  unfold potentialRelatedTxs. rewrite filter_In, isPotentialRelatedTx_true. reflexivity.
Qed.

(** ** Tie-break loop *)

Lemma closerThanBest_true (isFunding : bool) (best c : Transaction) :
  closerThanBest isFunding best c = true ↔ closerOn isFunding (selectedField best c) c best.
Proof.
  unfold closerThanBest, closerOn, selectedField.
  destruct (Js.truthyNumber (timestamp best) && Js.truthyNumber (timestamp c));
    [|destruct (Js.truthyNumber (blockHeight best) && Js.truthyNumber (blockHeight c))];
    cbn [fieldValue]; rewrite isCloser_true; destruct isFunding; lia.
Qed.

Lemma selectedField_sym (a b : Transaction) : selectedField a b = selectedField b a.
Proof.
  unfold selectedField.
  now rewrite (andb_comm (Js.truthyNumber (timestamp a))),
    (andb_comm (Js.truthyNumber (blockHeight a))).
Qed.

Lemma pickClosest_cons (isFunding : bool) (c : Transaction) (l : list Transaction) :
  pickClosest isFunding (c :: l) = fold_left (pickStep isFunding) l (Some c).
Proof. reflexivity. Qed.

Lemma fold_pickStep_some (isFunding : bool) (l : list Transaction) (best : Transaction) :
  ∃ r, fold_left (pickStep isFunding) l (Some best) = Some r ∧ (r = best ∨ In r l).
Proof.
  revert best. induction l as [|c l IH]; intros best; simpl.
  - exists best. auto.
  - destruct (closerThanBest isFunding best c).
    + destruct (IH c) as (r & -> & [->|Hin]); eauto.
    + destruct (IH best) as (r & -> & [->|Hin]); eauto.
Qed.

Lemma pickClosest_In (isFunding : bool) (l : list Transaction) (r : Transaction) :
  pickClosest isFunding l = Some r → In r l.
Proof.
  destruct l as [|c l]; [discriminate|].
  rewrite pickClosest_cons. intros H.
  destruct (fold_pickStep_some isFunding l c) as (r' & Hr' & Hin).
  rewrite Hr' in H. injection H as <-. destruct Hin as [->|Hin]; simpl; auto.
Qed.

Lemma pickClosest_None (isFunding : bool) (l : list Transaction) :
  pickClosest isFunding l = None ↔ l = [].
Proof.
  split; [|intros ->; reflexivity].
  destruct l as [|c l]; [reflexivity|].
  rewrite pickClosest_cons.
  destruct (fold_pickStep_some isFunding l c) as (r & -> & _). discriminate.
Qed.

Local Open Scope list_scope.

Section TieBreak.

Variable isFunding : bool.

(** A key whose order is the one of the pairwise comparisons. *)
Variable key : Transaction → Z.

Lemma isCloser_key_trans (a b c : Transaction) :
  isCloser isFunding (key a) (key b) = true →
  isCloser isFunding (key b) (key c) = true →
  isCloser isFunding (key a) (key c) = true.
Proof.
  rewrite !isCloser_true. destruct isFunding; lia.
Qed.

Lemma isCloser_key_trans_weak (a b c : Transaction) :
  isCloser isFunding (key a) (key b) = true →
  isCloser isFunding (key c) (key b) = false →
  isCloser isFunding (key a) (key c) = true.
Proof.
  rewrite !isCloser_true, isCloser_false. destruct isFunding; lia.
Qed.

(** The loop keeps the first of the closest candidates: with [best] the
    current choice among the transactions [h1 ++ best :: h2] already seen,
    strictly closer than those of [h1] and not beaten by those of [h2], the
    same holds of the final choice among all of them. *)
Lemma fold_pickStep_first_closest (l : list Transaction) :
  ∀ (all h1 : list Transaction) (best : Transaction) (h2 : list Transaction),
    all = h1 ++ best :: h2 ++ l →
    (∀ a b, In a all → In b all →
       closerThanBest isFunding a b = isCloser isFunding (key b) (key a)) →
    (∀ x, In x h1 → isCloser isFunding (key best) (key x) = true) →
    (∀ x, In x h2 → isCloser isFunding (key x) (key best) = false) →
    ∃ g1 r g2,
      all = g1 ++ r :: g2
      ∧ fold_left (pickStep isFunding) l (Some best) = Some r
      ∧ (∀ x, In x g1 → isCloser isFunding (key r) (key x) = true)
      ∧ (∀ x, In x g2 → isCloser isFunding (key x) (key r) = false).
Proof.
  induction l as [|c l IH]; intros all h1 best h2 Hall Hkey Hh1 Hh2.
  - exists h1, best, h2. rewrite app_nil_r in Hall. auto.
  - cbn [fold_left pickStep].
    assert (Hbest : In best all) by (subst all; apply in_elt).
    assert (Hc : In c all).
    { subst all. apply in_or_app. right. right. apply in_or_app. right. left. reflexivity. }
    rewrite (Hkey best c Hbest Hc).
    destruct (isCloser isFunding (key c) (key best)) eqn:Hcloser.
    + apply (IH all (h1 ++ best :: h2) c []); auto.
      * subst all. now rewrite <- app_assoc.
      * intros x Hx. apply in_app_or in Hx as [Hx|[<-|Hx]].
        -- eapply isCloser_key_trans; eauto.
        -- assumption.
        -- eapply isCloser_key_trans_weak; eauto.
      * intros x [].
    + apply (IH all h1 best (h2 ++ [c])); auto.
      * subst all. now rewrite <- app_assoc.
      * intros x Hx. apply in_app_or in Hx as [Hx|[<-|[]]]; auto.
Qed.

Lemma pickClosest_first_closest (l : list Transaction) :
  l ≠ [] →
  (∀ a b, In a l → In b l →
     closerThanBest isFunding a b = isCloser isFunding (key b) (key a)) →
  ∃ g1 r g2,
    l = g1 ++ r :: g2
    ∧ pickClosest isFunding l = Some r
    ∧ (∀ x, In x g1 → isCloser isFunding (key r) (key x) = true)
    ∧ (∀ x, In x g2 → isCloser isFunding (key x) (key r) = false).
Proof.
  destruct l as [|c l]; [congruence|]. intros _ Hkey.
  rewrite pickClosest_cons.
  apply (fold_pickStep_first_closest l (c :: l) [] c []); auto.
  intros x [].
Qed.

End TieBreak.

(** When every pair of candidates is compared on the same field, the value
    of that field is a key for the comparisons. *)
Lemma closerThanBest_uniform (isFunding : bool) (f : OrderingField) (a b : Transaction) :
  selectedField a b = f →
  closerThanBest isFunding a b = isCloser isFunding (fieldValue f b) (fieldValue f a).
Proof.
  intros Hf. apply eq_iff_eq_true.
  rewrite closerThanBest_true, isCloser_true, Hf.
  unfold closerOn. destruct isFunding; lia.
Qed.

(** ** The function as a whole *)

Lemma handleProxyTransaction_returns stores tx known byHash :
  known !! getProxyAddress stores tx = Some byHash →
  handleProxyTransaction stores tx known =
    let proxyAddress := getProxyAddress stores tx in
    let relatedTx := findRelatedTx stores tx proxyAddress (Object_values byHash) in
    let needToSubscribe := needToSubscribeToProxy stores tx relatedTx (Object_values byHash) in
    Returns {| returned := relatedTx;
               needsSubscription := needToSubscribe;
               storeCall := proxyStoreCall needToSubscribe
                              (String.eqb proxyAddress (recipient tx)) proxyAddress |}.
Proof. intros H. unfold handleProxyTransaction. rewrite H. reflexivity. Qed.

Lemma handleProxyTransaction_throws stores tx known :
  known !! getProxyAddress stores tx = None →
  handleProxyTransaction stores tx known = ThrowsTypeError.
Proof. intros H. unfold handleProxyTransaction. rewrite H. reflexivity. Qed.

Lemma findRelatedTx_heuristic stores tx proxyAddress txs :
  Js.truthyString (relatedTransactionHash tx) = false →
  findRelatedTx stores tx proxyAddress txs = heuristicSearch stores tx proxyAddress txs.
Proof. intros H. unfold findRelatedTx. now rewrite H. Qed.

Lemma heuristicSearch_candidate stores tx proxyAddress txs r :
  heuristicSearch stores tx proxyAddress txs = Some r →
  In r (potentialRelatedTxs stores tx proxyAddress
          (isProxyData (raw (data tx)) (Some CASHLINK) None)
          (String.eqb proxyAddress (recipient tx)) txs).
Proof. unfold heuristicSearch. apply pickClosest_In. Qed.

(** [tx] passes the filter of its own search only as a transaction from an
    address to itself, without fee, that has neither timestamp nor height. *)
Lemma own_candidate stores tx proxyAddress isCashlink :
  isPotentialRelatedTx stores tx proxyAddress isCashlink
    (String.eqb proxyAddress (recipient tx)) tx = true →
  sender tx = recipient tx ∧ fee tx <= 0
  ∧ Js.truthyNumber (timestamp tx) = false ∧ Js.truthyNumber (blockHeight tx) = false.
Proof.
  rewrite isPotentialRelatedTx_true.
  intros (_ & _ & _ & _ & Hrole & Hchrono & Hamount).
  destruct (String.eqb proxyAddress (recipient tx)) eqn:Hp.
  - apply String.eqb_eq in Hp. cbn in Hrole.
    unfold chronologicalCheck, selectedField in Hchrono.
    rewrite !andb_diag in Hchrono.
    destruct (Js.truthyNumber (timestamp tx)); [cbn in Hchrono; lia|].
    destruct (Js.truthyNumber (blockHeight tx)); [cbn in Hchrono; lia|].
    repeat split; [congruence|].
    destruct isCashlink; cbn in Hamount; lia.
  - apply String.eqb_neq in Hp. cbn in Hrole. congruence.
Qed.

(** ** Amount check *)

(** C1: in the heuristic search a candidate is kept exactly when, besides
    the other checks, the amounts fit: for a cashlink, [tx.value >=
    candidate.value + candidate.fee] for a funding [tx] and [tx.value +
    tx.fee <= candidate.value] for a redeeming one; for any other proxy the
    same with equality. The related transaction that is returned fits in
    this sense. A cashlink redeemer of 60 with fee 1 is matched to a funding
    of 100; with the tags of an HTLC proxy it is not, and a redeemer of 100
    without fee is. *)
Theorem amount_check_partial_or_exact :
  (∀ stores tx proxyAddress txs c,
     let isCashlink := isProxyData (raw (data tx)) (Some CASHLINK) None in
     let isFunding := String.eqb proxyAddress (recipient tx) in
     In c (potentialRelatedTxs stores tx proxyAddress isCashlink isFunding txs) ↔
       In c txs
       ∧ Js.truthyString (relatedTransactionHash c) = false
       ∧ state c ≠ INVALIDATED
       ∧ state c ≠ EXPIRED
       ∧ someAddressOwned stores tx c
       ∧ spec_roleCheck isFunding proxyAddress c
       ∧ chronologicalCheck isFunding tx c
       ∧ spec_amountCheck isCashlink isFunding tx c)
  ∧ (∀ stores tx known res r,
       Js.truthyString (relatedTransactionHash tx) = false →
       handleProxyTransaction stores tx known = Returns res →
       returned res = Some r →
       spec_amountCheck (isProxyData (raw (data tx)) (Some CASHLINK) None)
         (String.eqb (getProxyAddress stores tx) (recipient tx)) tx r)
  ∧ (let F := Scenario.F Scenario.tagCASH in
     let R := Scenario.R 60 1 Scenario.tagLINK in
     handleProxyTransaction Scenario.walletOfBob R (Scenario.knownAt Scenario.proxy [F; R])
     = Returns {| returned := Some F; needsSubscription := false;
                  storeCall := removeProxy Scenario.proxy |})
  ∧ (let F := Scenario.F Scenario.tagHPFD in
     let R := Scenario.R 60 1 Scenario.tagHPRD in
     handleProxyTransaction Scenario.walletOfBob R (Scenario.knownAt Scenario.proxy [F; R])
     = Returns {| returned := None; needsSubscription := true;
                  storeCall := addClaimedProxy Scenario.proxy |})
  ∧ (let F := Scenario.F Scenario.tagHPFD in
     let R := Scenario.R 100 0 Scenario.tagHPRD in
     handleProxyTransaction Scenario.walletOfBob R (Scenario.knownAt Scenario.proxy [F; R])
     = Returns {| returned := Some F; needsSubscription := false;
                  storeCall := removeProxy Scenario.proxy |}).
Proof.
  split; [|split; [|split; [|split]]].
  - intros. apply potentialRelatedTxs_In.
  - intros stores tx known res r Hrel Hres Hr.
    unfold handleProxyTransaction in Hres.
    destruct (known !! getProxyAddress stores tx) as [byHash|]; [|discriminate].
    injection Hres as <-. cbn in Hr.
    rewrite findRelatedTx_heuristic in Hr by assumption.
    apply heuristicSearch_candidate, potentialRelatedTxs_In in Hr.
    apply Hr.
  - vm_compute. reflexivity.
  - vm_compute. reflexivity.
  - vm_compute. reflexivity.
Qed.

(** The amount of a cashlink redeemer that is returned for a funding
    transaction: an instance with the redeemer of 60 and the fee of 1. *)
Lemma amount_check_partial_or_exact_witness :
  spec_amountCheck true false (Scenario.R 60 1 Scenario.tagLINK) (Scenario.F Scenario.tagCASH).
Proof.
  exact (proj1 (proj2 amount_check_partial_or_exact)
           Scenario.walletOfBob (Scenario.R 60 1 Scenario.tagLINK)
           (Scenario.knownAt Scenario.proxy
              [Scenario.F Scenario.tagCASH; Scenario.R 60 1 Scenario.tagLINK])
           {| returned := Some (Scenario.F Scenario.tagCASH); needsSubscription := false;
              storeCall := removeProxy Scenario.proxy |}
           (Scenario.F Scenario.tagCASH)
           eq_refl eq_refl eq_refl).
Defined.

(** ** Tie-break *)

(** C2 fails on the code: the funding transaction T has the four redeemers
    Z, Y, A and X as candidates. Enumerated in this order, the loop goes from
    Z to the pending A and from A to X on validity start heights, and returns
    X, although Y is earlier than X on the timestamp, on which the two are
    compared, and on the block height and the validity start height as well.
    The comparisons form a cycle, and other enumeration orders of the same
    transactions return Z, A or Y. *)
Lemma closest_candidate_not_chosen :
  potentialRelatedTxs Scenario.wallet Scenario.T Scenario.proxy
    (isProxyData (raw (data Scenario.T)) (Some CASHLINK) None)
    (String.eqb Scenario.proxy (recipient Scenario.T))
    [Scenario.T; Scenario.Z; Scenario.Y; Scenario.A; Scenario.X]
  = [Scenario.Z; Scenario.Y; Scenario.A; Scenario.X]
  ∧ handleProxyTransaction Scenario.wallet Scenario.T
      (Scenario.knownAt Scenario.proxy
         [Scenario.T; Scenario.Z; Scenario.Y; Scenario.A; Scenario.X])
    = Returns {| returned := Some Scenario.X; needsSubscription := true;
                 storeCall := addFundedProxy Scenario.proxy |}
  ∧ selectedField Scenario.X Scenario.Y = ByTimestamp
  ∧ fieldValue ByTimestamp Scenario.Y < fieldValue ByTimestamp Scenario.X
  ∧ fieldValue ByBlockHeight Scenario.Y < fieldValue ByBlockHeight Scenario.X
  ∧ fieldValue ByValidityStartHeight Scenario.Y < fieldValue ByValidityStartHeight Scenario.X
  ∧ closerThanBest true Scenario.X Scenario.Y = true
  ∧ closerThanBest true Scenario.Y Scenario.Z = true
  ∧ closerThanBest true Scenario.Z Scenario.A = true
  ∧ closerThanBest true Scenario.A Scenario.X = true
  ∧ handleProxyTransaction Scenario.wallet Scenario.T
      (Scenario.knownAt Scenario.proxy
         [Scenario.T; Scenario.X; Scenario.A; Scenario.Y; Scenario.Z])
    = Returns {| returned := Some Scenario.Z; needsSubscription := true;
                 storeCall := addFundedProxy Scenario.proxy |}
  ∧ handleProxyTransaction Scenario.wallet Scenario.T
      (Scenario.knownAt Scenario.proxy
         [Scenario.T; Scenario.X; Scenario.Y; Scenario.Z; Scenario.A])
    = Returns {| returned := Some Scenario.A; needsSubscription := true;
                 storeCall := addFundedProxy Scenario.proxy |}
  ∧ handleProxyTransaction Scenario.wallet Scenario.T
      (Scenario.knownAt Scenario.proxy
         [Scenario.T; Scenario.Z; Scenario.A; Scenario.X; Scenario.Y])
    = Returns {| returned := Some Scenario.Y; needsSubscription := true;
                 storeCall := addFundedProxy Scenario.proxy |}.
Proof. vm_compute. repeat split. Qed.

(** Where the tie-break does find the closest candidate: when the pairwise
    comparisons of the surviving candidates are those of one key, and so when
    every two of them are compared on the same field, the heuristic search
    returns a surviving candidate with the least value of that key or field
    for a funding [tx], and with the greatest one for a redeeming [tx]. Of
    two fundings of 100 the redeemer of 100 gets the
    later one, and a funding gets the earlier of its two redeemers, in
    whichever order the store enumerates them. *)
Theorem closest_candidate_on_common_field :
  (∀ stores tx known byHash (key : Transaction → Z),
     let proxyAddress := getProxyAddress stores tx in
     let isFunding := String.eqb proxyAddress (recipient tx) in
     let candidates :=
       potentialRelatedTxs stores tx proxyAddress
         (isProxyData (raw (data tx)) (Some CASHLINK) None) isFunding (Object_values byHash) in
     Js.truthyString (relatedTransactionHash tx) = false →
     known !! proxyAddress = Some byHash →
     candidates ≠ [] →
     (∀ a b, In a candidates → In b candidates →
        closerThanBest isFunding a b = isCloser isFunding (key b) (key a)) →
     ∃ res r,
       handleProxyTransaction stores tx known = Returns res
       ∧ returned res = Some r
       ∧ In r candidates
       ∧ ∀ c, In c candidates →
           if isFunding then key r <= key c else key c <= key r)
  ∧ (∀ stores tx known byHash f,
     let proxyAddress := getProxyAddress stores tx in
     let isFunding := String.eqb proxyAddress (recipient tx) in
     let candidates :=
       potentialRelatedTxs stores tx proxyAddress
         (isProxyData (raw (data tx)) (Some CASHLINK) None) isFunding (Object_values byHash) in
     Js.truthyString (relatedTransactionHash tx) = false →
     known !! proxyAddress = Some byHash →
     candidates ≠ [] →
     (∀ a b, In a candidates → In b candidates → selectedField a b = f) →
     ∃ res r,
       handleProxyTransaction stores tx known = Returns res
       ∧ returned res = Some r
       ∧ In r candidates
       ∧ ∀ c, In c candidates →
           if isFunding then fieldValue f r <= fieldValue f c
           else fieldValue f c <= fieldValue f r)
  ∧ (let R := Scenario.R 100 0 Scenario.tagHPRD in
     ∀ known, known = [Scenario.F1; Scenario.F2; R] ∨ known = [Scenario.F2; Scenario.F1; R] →
       handleProxyTransaction Scenario.wallet R (Scenario.knownAt Scenario.proxy known)
       = Returns {| returned := Some Scenario.F2; needsSubscription := true;
                    storeCall := addClaimedProxy Scenario.proxy |})
  ∧ (let F := Scenario.F Scenario.tagHPFD in
     ∀ known, known = [F; Scenario.R1; Scenario.R2] ∨ known = [Scenario.R2; Scenario.R1; F] →
       handleProxyTransaction Scenario.wallet F (Scenario.knownAt Scenario.proxy known)
       = Returns {| returned := Some Scenario.R1; needsSubscription := true;
                    storeCall := addFundedProxy Scenario.proxy |}).
Proof.
  assert (Hgeneral : ∀ stores tx known byHash (key : Transaction → Z),
     let proxyAddress := getProxyAddress stores tx in
     let isFunding := String.eqb proxyAddress (recipient tx) in
     let candidates :=
       potentialRelatedTxs stores tx proxyAddress
         (isProxyData (raw (data tx)) (Some CASHLINK) None) isFunding (Object_values byHash) in
     Js.truthyString (relatedTransactionHash tx) = false →
     known !! proxyAddress = Some byHash →
     candidates ≠ [] →
     (∀ a b, In a candidates → In b candidates →
        closerThanBest isFunding a b = isCloser isFunding (key b) (key a)) →
     ∃ res r,
       handleProxyTransaction stores tx known = Returns res
       ∧ returned res = Some r
       ∧ In r candidates
       ∧ ∀ c, In c candidates →
           if isFunding then key r <= key c else key c <= key r);
  [|split; [exact Hgeneral|split; [|split]]].
  - intros stores tx known byHash key proxyAddress isFunding candidates Hrel Hknown Hne Hkey.
    rewrite (handleProxyTransaction_returns _ _ _ _ Hknown). cbn zeta.
    destruct (pickClosest_first_closest isFunding key candidates Hne Hkey)
      as (g1 & r & g2 & Hsplit & Hpick & Hg1 & Hg2).
    eexists. exists r. split; [reflexivity|]. cbn [returned].
    rewrite findRelatedTx_heuristic by assumption.
    split; [exact Hpick|]. split; [rewrite Hsplit; apply in_elt|].
    intros c Hc. rewrite Hsplit in Hc.
    apply in_app_or in Hc as [Hc|[<-|Hc]].
    + apply Hg1, isCloser_true in Hc. destruct isFunding; lia.
    + destruct isFunding; lia.
    + apply Hg2, isCloser_false in Hc. exact Hc.
  - intros stores tx known byHash f proxyAddress isFunding candidates Hrel Hknown Hne Hf.
    apply (Hgeneral stores tx known byHash (fieldValue f)); try assumption.
    intros a b Ha Hb. now apply closerThanBest_uniform, Hf.
  - intros R known [-> | ->]; vm_compute; reflexivity.
  - intros F known [-> | ->]; vm_compute; reflexivity.
Qed.

(** The redeemer of 100 and the two fundings F1 and F2, compared on their
    timestamps: the funding that is returned has the greatest one. *)
Lemma closest_candidate_on_common_field_witness :
  ∃ res r,
    handleProxyTransaction Scenario.wallet (Scenario.R 100 0 Scenario.tagHPRD)
      (Scenario.knownAt Scenario.proxy
         [Scenario.F1; Scenario.F2; Scenario.R 100 0 Scenario.tagHPRD]) = Returns res
    ∧ returned res = Some r
    ∧ In r [Scenario.F1; Scenario.F2]
    ∧ ∀ c, In c [Scenario.F1; Scenario.F2] →
        fieldValue ByTimestamp c <= fieldValue ByTimestamp r.
Proof.
  apply (proj1 (proj2 closest_candidate_on_common_field) Scenario.wallet
           (Scenario.R 100 0 Scenario.tagHPRD)
           (Scenario.knownAt Scenario.proxy
              [Scenario.F1; Scenario.F2; Scenario.R 100 0 Scenario.tagHPRD])
           (map (fun t => (transactionHash t, t))
              [Scenario.F1; Scenario.F2; Scenario.R 100 0 Scenario.tagHPRD])
           ByTimestamp).
  - reflexivity.
  - reflexivity.
  - vm_compute. discriminate.
  - intros a b Ha Hb. vm_compute in Ha, Hb.
    destruct Ha as [<-|[<-|[]]], Hb as [<-|[<-|[]]]; reflexivity.
Defined.

(** ** Chronological comparison *)




(** ** Subscription decision *)

Lemma needToSubscribeToProxy_true stores tx relatedTx txs :
  needToSubscribeToProxy stores tx relatedTx txs = true ↔
    relatedTx = None
    ∨ (∃ p, In p txs
          ∧ Js.truthyString (relatedTransactionHash p) = false
          ∧ transactionHash p ≠ transactionHash tx
          ∧ ∀ r, relatedTx = Some r → transactionHash p ≠ transactionHash r)
    ∨ (∃ p, In p txs
          ∧ state p ≠ CONFIRMED
          ∧ (sender p ∉ addressInfos stores)
          ∧ (recipient p ∉ addressInfos stores)).
Proof.
  destruct relatedTx as [related|]; cbn [needToSubscribeToProxy].
  - rewrite existsb_exists. split.
    + intros (p & Hin & Hp). apply orb_true_iff in Hp as [Hp|Hp].
      * apply andb_true_iff in Hp as [Hp Hrel]. apply andb_true_iff in Hp as [Hlacks Htx].
        apply negb_true_iff in Hlacks, Htx, Hrel. apply String.eqb_neq in Htx, Hrel.
        right. left. exists p. repeat split; try assumption. now intros r [= <-].
      * apply andb_true_iff in Hp as [Hp Hrcp]. apply andb_true_iff in Hp as [Hstate Hsnd].
        apply negb_true_iff in Hstate, Hsnd, Hrcp.
        apply bool_decide_eq_false in Hstate. apply hasAddressInfo_false in Hsnd, Hrcp.
        right. right. exists p. auto.
    + intros [Hnone|[(p & Hin & Hlacks & Htx & Hrel)|(p & Hin & Hstate & Hsnd & Hrcp)]].
      * discriminate.
      * exists p. split; [assumption|]. apply orb_true_iff. left.
        rewrite Hlacks. cbn [negb andb].
        apply andb_true_iff. split; apply negb_true_iff, String.eqb_neq; auto.
      * exists p. split; [assumption|]. apply orb_true_iff. right.
        rewrite !andb_true_iff, !negb_true_iff, bool_decide_eq_false, !hasAddressInfo_false.
        auto.
  - split; auto.
Qed.

(** C4: the proxy has to stay subscribed exactly when no related
    transaction was found, or a known transaction other than [tx] and the
    related one has no [relatedTransactionHash], or a known transaction is
    not confirmed while neither its sender nor its recipient is one of our
    addresses. The proxy is then stored as funded for a funding [tx] and as
    claimed otherwise; else it is removed. With F and R linked to each other
    and confirmed the proxy is removed; with only a pending F it is kept. *)
Theorem subscription_decision :
  (∀ stores tx known byHash,
     known !! getProxyAddress stores tx = Some byHash →
     ∃ res,
       handleProxyTransaction stores tx known = Returns res
       ∧ (needsSubscription res = true ↔
            returned res = None
            ∨ (∃ p, In p (Object_values byHash)
                  ∧ Js.truthyString (relatedTransactionHash p) = false
                  ∧ transactionHash p ≠ transactionHash tx
                  ∧ ∀ r, returned res = Some r → transactionHash p ≠ transactionHash r)
            ∨ (∃ p, In p (Object_values byHash)
                  ∧ state p ≠ CONFIRMED
                  ∧ (sender p ∉ addressInfos stores)
                  ∧ (recipient p ∉ addressInfos stores)))
       ∧ (needsSubscription res = true → getProxyAddress stores tx = recipient tx →
            storeCall res = addFundedProxy (getProxyAddress stores tx))
       ∧ (needsSubscription res = true → getProxyAddress stores tx ≠ recipient tx →
            storeCall res = addClaimedProxy (getProxyAddress stores tx))
       ∧ (needsSubscription res = false →
            storeCall res = removeProxy (getProxyAddress stores tx)))
  ∧ handleProxyTransaction Scenario.wallet Scenario.linkedF
      (Scenario.knownAt Scenario.proxy [Scenario.linkedF; Scenario.linkedR])
    = Returns {| returned := Some Scenario.linkedR; needsSubscription := false;
                 storeCall := removeProxy Scenario.proxy |}
  ∧ handleProxyTransaction Scenario.walletOfBob Scenario.linkedR
      (Scenario.knownAt Scenario.proxy [Scenario.linkedF; Scenario.linkedR])
    = Returns {| returned := Some Scenario.linkedF; needsSubscription := false;
                 storeCall := removeProxy Scenario.proxy |}
  ∧ handleProxyTransaction Scenario.wallet Scenario.P
      (Scenario.knownAt Scenario.proxy [Scenario.P])
    = Returns {| returned := None; needsSubscription := true;
                 storeCall := addFundedProxy Scenario.proxy |}.
Proof.
  split; [|split; [|split]]; [|vm_compute; reflexivity..].
  intros stores tx known byHash Hknown.
  rewrite (handleProxyTransaction_returns _ _ _ _ Hknown). cbn zeta.
  eexists. split; [reflexivity|]. cbn [returned needsSubscription storeCall].
  split; [apply needToSubscribeToProxy_true|].
  unfold proxyStoreCall. split; [|split].
  - intros -> Heq. apply String.eqb_eq in Heq. now rewrite Heq.
  - intros -> Hne. apply String.eqb_neq in Hne. now rewrite Hne.
  - intros ->. reflexivity.
Qed.

(** The decision for the pending funding P, the only known transaction at
    its proxy: no related transaction, hence a subscription. *)
Lemma subscription_decision_witness :
  ∃ res,
    handleProxyTransaction Scenario.wallet Scenario.P
      (Scenario.knownAt Scenario.proxy [Scenario.P]) = Returns res
    ∧ (needsSubscription res = true ↔
         returned res = None
         ∨ (∃ p, In p [Scenario.P]
               ∧ Js.truthyString (relatedTransactionHash p) = false
               ∧ transactionHash p ≠ transactionHash Scenario.P
               ∧ ∀ r, returned res = Some r → transactionHash p ≠ transactionHash r)
         ∨ (∃ p, In p [Scenario.P]
               ∧ state p ≠ CONFIRMED
               ∧ (sender p ∉ addressInfos Scenario.wallet)
               ∧ (recipient p ∉ addressInfos Scenario.wallet)))
    ∧ (needsSubscription res = true → Scenario.proxy = recipient Scenario.P →
         storeCall res = addFundedProxy Scenario.proxy)
    ∧ (needsSubscription res = true → Scenario.proxy ≠ recipient Scenario.P →
         storeCall res = addClaimedProxy Scenario.proxy)
    ∧ (needsSubscription res = false → storeCall res = removeProxy Scenario.proxy).
Proof.
  exact (proj1 subscription_decision Scenario.wallet Scenario.P
           (Scenario.knownAt Scenario.proxy [Scenario.P])
           [(transactionHash Scenario.P, Scenario.P)] eq_refl).
Defined.

(** ** First transaction at a proxy *)

(** C7 fails on the code: without an entry for the proxy address in
    [knownProxyTransactions], [Object.values] is applied to [undefined] and
    throws, before the alternative [[tx]] is looked at. With an entry that
    holds only [tx], between two different addresses, the call returns no
    related transaction and asks for a subscription, as for the pending
    funding P. *)
Theorem missing_entry_throws :
  (∀ stores tx, handleProxyTransaction stores tx ∅ = ThrowsTypeError)
  ∧ (∀ stores tx known,
       known !! getProxyAddress stores tx = None →
       handleProxyTransaction stores tx known = ThrowsTypeError)
  ∧ (∀ stores tx known,
       known !! getProxyAddress stores tx = Some [(transactionHash tx, tx)] →
       Js.truthyString (relatedTransactionHash tx) = false →
       sender tx ≠ recipient tx →
       ∃ res, handleProxyTransaction stores tx known = Returns res
              ∧ returned res = None ∧ needsSubscription res = true)
  ∧ handleProxyTransaction Scenario.wallet Scenario.P ∅ = ThrowsTypeError
  ∧ handleProxyTransaction Scenario.wallet Scenario.P
      (Scenario.knownAt Scenario.alice [Scenario.selfTx]) = ThrowsTypeError
  ∧ handleProxyTransaction Scenario.wallet Scenario.P
      (Scenario.knownAt Scenario.proxy [Scenario.P])
    = Returns {| returned := None; needsSubscription := true;
                 storeCall := addFundedProxy Scenario.proxy |}.
Proof.
  split; [|split; [|split; [|split; [|split]]]]; [| | |vm_compute; reflexivity..].
  - intros stores tx. apply handleProxyTransaction_throws, lookup_empty.
  - intros stores tx known. apply handleProxyTransaction_throws.
  - intros stores tx known Hknown Hrel Hne.
    rewrite (handleProxyTransaction_returns _ _ _ _ Hknown). cbn zeta.
    eexists. split; [reflexivity|]. cbn [returned needsSubscription].
    assert (Hnone : findRelatedTx stores tx (getProxyAddress stores tx)
                      (Object_values [(transactionHash tx, tx)]) = None).
    { rewrite findRelatedTx_heuristic by assumption.
      unfold heuristicSearch, potentialRelatedTxs, Object_values.
      cbn [map snd List.filter].
      destruct (isPotentialRelatedTx _ _ _ _ _ tx) eqn:Hown; [|reflexivity].
      apply own_candidate in Hown as [Hself _]. contradiction. }
    rewrite Hnone. split; reflexivity.
Qed.

(** ** The transaction itself as a candidate *)

(** The filter has no test of its own that leaves [tx] out: outside the
    precondition of [getProxyAddress], a pending transaction without fee from
    Alice's address to itself, the only known transaction at that address,
    is returned as its own related transaction. *)
Lemma self_transfer_is_its_own_related :
  In Scenario.selfTx
    (Object_values [(transactionHash Scenario.selfTx, Scenario.selfTx)])
  ∧ Js.truthyString (relatedTransactionHash Scenario.selfTx) = false
  ∧ potentialRelatedTxs Scenario.wallet Scenario.selfTx Scenario.alice
      (isProxyData (raw (data Scenario.selfTx)) (Some CASHLINK) None)
      (String.eqb Scenario.alice (recipient Scenario.selfTx)) [Scenario.selfTx]
    = [Scenario.selfTx]
  ∧ handleProxyTransaction Scenario.wallet Scenario.selfTx
      (Scenario.knownAt Scenario.alice [Scenario.selfTx])
    = Returns {| returned := Some Scenario.selfTx; needsSubscription := false;
                 storeCall := removeProxy Scenario.alice |}.
Proof. vm_compute. auto. Qed.



(** ** Related transaction known by its hash *)

Lemma findRelatedTx_lookup stores tx proxyAddress txs h :
  relatedTransactionHash tx = Some h → h ≠ "" →
  findRelatedTx stores tx proxyAddress txs
  = List.find (fun proxyTx => String.eqb (transactionHash proxyTx) h) txs.
Proof.
  intros Hh Hne. unfold findRelatedTx. rewrite Hh. cbn [Js.truthyString].
  apply String.eqb_neq in Hne. rewrite Hne. cbn [negb].
  induction txs as [|p txs IH]; [reflexivity|]. cbn [List.find]. rewrite IH.
  destruct (String.eqb (transactionHash p) h) eqn:Hp.
  - apply String.eqb_eq in Hp. rewrite bool_decide_eq_true_2; congruence.
  - apply String.eqb_neq in Hp. rewrite bool_decide_eq_false_2; congruence.
Qed.

(** C9: for a [tx] whose [relatedTransactionHash] is set, the result is
    the known transaction at the proxy address with that hash, and null when
    there is none; it is the same for any other stores, transaction or proxy
    address with that hash and those known transactions, so that nothing of
    the heuristic search bears on it. *)
Theorem related_hash_is_looked_up stores tx known byHash h :
  relatedTransactionHash tx = Some h → h ≠ "" →
  known !! getProxyAddress stores tx = Some byHash →
  ∃ res,
    handleProxyTransaction stores tx known = Returns res
    ∧ returned res
      = List.find (fun proxyTx => String.eqb (transactionHash proxyTx) h) (Object_values byHash)
    ∧ (∀ r, returned res = Some r → In r (Object_values byHash) ∧ transactionHash r = h)
    ∧ (returned res = None ↔ ∀ p, In p (Object_values byHash) → transactionHash p ≠ h)
    ∧ (∀ r, In r (Object_values byHash) → transactionHash r = h →
         (∀ p, In p (Object_values byHash) → transactionHash p = h → p = r) →
         returned res = Some r)
    ∧ (∀ stores' tx' proxyAddress',
         relatedTransactionHash tx' = Some h →
         findRelatedTx stores' tx' proxyAddress' (Object_values byHash) = returned res).
Proof.
  intros Hh Hne Hknown.
  rewrite (handleProxyTransaction_returns _ _ _ _ Hknown). cbn zeta.
  eexists. split; [reflexivity|]. cbn [returned].
  rewrite (findRelatedTx_lookup _ _ _ _ h Hh Hne).
  split; [reflexivity|]. split; [|split; [|split]].
  - intros r Hr. apply find_some in Hr as [Hin Heq].
    apply String.eqb_eq in Heq. auto.
  - split.
    + intros Hnone p Hin Heq.
      apply (find_none _ _ Hnone) in Hin. apply String.eqb_neq in Hin. contradiction.
    + intros Hall.
      destruct (List.find _ (Object_values byHash)) as [r|] eqn:Hr; [|reflexivity].
      apply find_some in Hr as [Hin Heq]. apply String.eqb_eq in Heq.
      now apply Hall in Hin.
  - intros r Hin Heq Huniq.
    destruct (List.find _ (Object_values byHash)) as [r'|] eqn:Hr.
    + apply find_some in Hr as [Hin' Heq']. apply String.eqb_eq in Heq'.
      f_equal. auto.
    + apply (find_none _ _ Hr) in Hin. apply String.eqb_neq in Hin. contradiction.
  - intros stores' tx' proxyAddress' Hh'. now apply findRelatedTx_lookup.
Qed.

(** The funding F, linked by the store to its redeemer R. *)
Lemma related_hash_is_looked_up_witness :
  ∃ res,
    handleProxyTransaction Scenario.wallet Scenario.linkedF
      (Scenario.knownAt Scenario.proxy [Scenario.linkedF; Scenario.linkedR]) = Returns res
    ∧ returned res = Some Scenario.linkedR.
Proof.
  destruct (related_hash_is_looked_up Scenario.wallet Scenario.linkedF
              (Scenario.knownAt Scenario.proxy [Scenario.linkedF; Scenario.linkedR])
              [(transactionHash Scenario.linkedF, Scenario.linkedF);
               (transactionHash Scenario.linkedR, Scenario.linkedR)]
              "R" eq_refl ltac:(discriminate) eq_refl)
    as (res & Hres & Hfind & _).
  exists res. split; [exact Hres | exact Hfind].
Defined.

(** ** Ties *)

(** C10: in the loop a candidate replaces the current choice only when it
    is strictly closer on the field the two are compared on, so that of the
    closest candidates the one enumerated first is returned. Two redeemers
    with the same timestamp are each returned for the funding T, depending on
    the order in which the store enumerates them. *)
Theorem tie_keeps_first_enumerated :
  (∀ isFunding best c,
     pickStep isFunding (Some best) c = Some c →
     c = best ∨ closerOn isFunding (selectedField best c) c best)
  ∧ (∀ isFunding best c,
       ¬ closerOn isFunding (selectedField best c) c best →
       pickStep isFunding (Some best) c = Some best)
  ∧ (∀ isFunding a b,
       fieldValue (selectedField a b) a = fieldValue (selectedField a b) b →
       pickClosest isFunding [a; b] = Some a ∧ pickClosest isFunding [b; a] = Some b)
  ∧ (∀ isFunding f candidates,
       candidates ≠ [] →
       (∀ a b, In a candidates → In b candidates → selectedField a b = f) →
       ∃ before r after,
         candidates = before ++ r :: after
         ∧ pickClosest isFunding candidates = Some r
         ∧ (∀ x, In x before → closerOn isFunding f r x)
         ∧ (∀ x, In x after → ¬ closerOn isFunding f x r))
  ∧ handleProxyTransaction Scenario.wallet Scenario.T
      (Scenario.knownAt Scenario.proxy [Scenario.T; Scenario.R3; Scenario.R4])
    = Returns {| returned := Some Scenario.R3; needsSubscription := true;
                 storeCall := addFundedProxy Scenario.proxy |}
  ∧ handleProxyTransaction Scenario.wallet Scenario.T
      (Scenario.knownAt Scenario.proxy [Scenario.T; Scenario.R4; Scenario.R3])
    = Returns {| returned := Some Scenario.R4; needsSubscription := true;
                 storeCall := addFundedProxy Scenario.proxy |}
  ∧ Scenario.R3 ≠ Scenario.R4
  ∧ (∀ x, In x [Scenario.T; Scenario.R3; Scenario.R4]
          ↔ In x [Scenario.T; Scenario.R4; Scenario.R3]).
Proof.
  split; [|split; [|split; [|split; [|split; [|split; [|split]]]]]].
  - intros isFunding best c. cbn [pickStep].
    destruct (closerThanBest isFunding best c) eqn:Hc.
    + intros _. right. now apply closerThanBest_true.
    + intros [= ->]. now left.
  - intros isFunding best c Hnot. cbn [pickStep].
    destruct (closerThanBest isFunding best c) eqn:Hc; [|reflexivity].
    apply closerThanBest_true in Hc. contradiction.
  - intros isFunding a b Heq.
    assert (Hab : closerThanBest isFunding a b = false).
    { apply not_true_is_false. intros H. apply closerThanBest_true in H.
      unfold closerOn in H. destruct isFunding; lia. }
    assert (Hba : closerThanBest isFunding b a = false).
    { apply not_true_is_false. intros H. apply closerThanBest_true in H.
      rewrite selectedField_sym in H. unfold closerOn in H. destruct isFunding; lia. }
    unfold pickClosest. cbn [fold_left pickStep]. now rewrite Hab, Hba.
  - intros isFunding f candidates Hne Hf.
    destruct (pickClosest_first_closest isFunding (fieldValue f) candidates Hne)
      as (g1 & r & g2 & Hsplit & Hpick & Hg1 & Hg2).
    { intros a b Ha Hb. now apply closerThanBest_uniform, Hf. }
    exists g1, r, g2. split; [assumption|]. split; [assumption|]. split.
    + intros x Hx. apply Hg1, isCloser_true in Hx. unfold closerOn. destruct isFunding; lia.
    + intros x Hx. apply Hg2, isCloser_false in Hx. unfold closerOn. destruct isFunding; lia.
  - vm_compute. reflexivity.
  - vm_compute. reflexivity.
  - discriminate.
  - intros x. cbn [In]. tauto.
Qed.

(** The two redeemers R3 and R4, of the same timestamp, in both orders. *)
Lemma tie_keeps_first_enumerated_witness :
  pickClosest true [Scenario.R3; Scenario.R4] = Some Scenario.R3
  ∧ pickClosest true [Scenario.R4; Scenario.R3] = Some Scenario.R4.
Proof.
  exact (proj1 (proj2 (proj2 tie_keeps_first_enumerated))
           true Scenario.R3 Scenario.R4 eq_refl).
Defined.

(** * Further properties of the proxy detection *)

(** ** Tag codec *)

Lemma append_two_chars (a b : ascii) (rest : string) :
  (String a (String b "") ++ rest)%string = String a (String b rest).
Proof. reflexivity. Qed.

Lemma two_hex_digits_inj (b1 b2 : Z) :
  0 <= b1 < 256 → 0 <= b2 < 256 →
  spec_twoHexDigits b1 = spec_twoHexDigits b2 → b1 = b2.
Proof.
  intros H1 H2 Heq.
  assert (Hall : forallb (fun n1 : nat => forallb (fun n2 : nat =>
            implb (String.eqb (spec_twoHexDigits (Z.of_nat n1))
                              (spec_twoHexDigits (Z.of_nat n2)))
                  (Nat.eqb n1 n2)) (seq 0 256)) (seq 0 256) = true)
    by (vm_compute; reflexivity).
  rewrite forallb_forall in Hall.
  specialize (Hall (Z.to_nat b1)). rewrite forallb_forall in Hall.
  specialize (Hall ltac:(apply in_seq; lia) (Z.to_nat b2) ltac:(apply in_seq; lia)).
  rewrite !Z2Nat.id in Hall by lia.
  rewrite Heq, String.eqb_refl in Hall. cbn [implb] in Hall.
  apply Nat.eqb_eq in Hall. lia.
Qed.

Lemma two_hex_digits_lowercase (b : Z) :
  0 <= b < 256 → Js.toLowerCase (spec_twoHexDigits b) = spec_twoHexDigits b.
Proof.
  intros Hb.
  assert (Hall : forallb (fun n : nat =>
            String.eqb (Js.toLowerCase (spec_twoHexDigits (Z.of_nat n)))
                       (spec_twoHexDigits (Z.of_nat n))) (seq 0 256) = true)
    by (vm_compute; reflexivity).
  rewrite forallb_forall in Hall.
  specialize (Hall (Z.to_nat b)). rewrite Z2Nat.id in Hall by lia.
  apply String.eqb_eq, Hall, in_seq. lia.
Qed.

Lemma hexOfBytes_cons (b : Z) (l : list Z) :
  spec_hexOfBytes (b :: l)
  = String (spec_lowerHexDigit (b / 16)) (String (spec_lowerHexDigit (b mod 16))
      (spec_hexOfBytes l)).
Proof. reflexivity. Qed.

Lemma hexOfBytes_inj (l1 l2 : list Z) :
  Forall (fun b => 0 <= b < 256) l1 → Forall (fun b => 0 <= b < 256) l2 →
  spec_hexOfBytes l1 = spec_hexOfBytes l2 → l1 = l2.
Proof.
  intros H1. revert l2. induction H1 as [|b1 l1 Hb1 _ IH]; intros l2 H2 Heq.
  - destruct l2 as [|b2 l2]; [reflexivity|]. rewrite hexOfBytes_cons in Heq. discriminate.
  - destruct H2 as [|b2 l2 Hb2 H2]; [rewrite hexOfBytes_cons in Heq; discriminate|].
    rewrite !hexOfBytes_cons in Heq. injection Heq as Hhi Hlo Hrest.
    f_equal.
    + apply two_hex_digits_inj; try assumption. unfold spec_twoHexDigits. congruence.
    + now apply IH.
Qed.

Lemma hexOfBytes_length (l : list Z) :
  String.length (spec_hexOfBytes l) = (2 * length l)%nat.
Proof.
  induction l as [|b l IH]; [reflexivity|].
  rewrite hexOfBytes_cons. cbn [String.length length]. rewrite IH. lia.
Qed.

Lemma hexOfBytes_lowercase (l : list Z) :
  Forall (fun b => 0 <= b < 256) l →
  Js.toLowerCase (spec_hexOfBytes l) = spec_hexOfBytes l.
Proof.
  induction 1 as [|b l Hb _ IH]; [reflexivity|].
  rewrite hexOfBytes_cons. cbn [Js.toLowerCase]. rewrite IH.
  pose proof (two_hex_digits_lowercase b Hb) as Hlow.
  unfold spec_twoHexDigits in Hlow. cbn [Js.toLowerCase] in Hlow.
  injection Hlow as -> ->. reflexivity.
Qed.

Lemma codeUnitBytes_range (codeUnits : list Z) :
  Forall (fun b => 0 <= b < 256)
    (map Js.toUint8 (0 :: map (fun code => code + 63) codeUnits)).
Proof.
  apply List.Forall_forall. intros b Hb.
  apply in_map_iff in Hb as (n & <- & _). apply toUint8_range.
Qed.

Lemma extraDataOfCodeUnits_bytes (codeUnits : list Z) :
  extraDataOfCodeUnits codeUnits
  = spec_hexOfBytes (map Js.toUint8 (0 :: map (fun code => code + 63) codeUnits)).
Proof.
  unfold extraDataOfCodeUnits, spec_hexOfBytes.
  rewrite fold_left_append_hex.
  change ("" ++ ?s)%string with s.
  f_equal. apply map_ext_in. intros b Hb.
  apply in_map_iff in Hb as (n & <- & _).
  apply byte_two_hex_digits, toUint8_range.
Qed.

Lemma shifted_byte_eq (c1 c2 : Z) :
  Js.toUint8 (c1 + 63) = Js.toUint8 (c2 + 63) ↔ c1 mod 256 = c2 mod 256.
Proof.
  unfold Js.toUint8.
  pose proof (Z.div_mod (c1 + 63) 256 ltac:(lia)) as D1.
  pose proof (Z.div_mod (c2 + 63) 256 ltac:(lia)) as D2.
  pose proof (Z.mod_pos_bound (c1 + 63) 256 ltac:(lia)) as M1.
  pose proof (Z.mod_pos_bound (c2 + 63) 256 ltac:(lia)) as M2.
  pose proof (Z.div_mod c1 256 ltac:(lia)) as E1.
  pose proof (Z.div_mod c2 256 ltac:(lia)) as E2.
  pose proof (Z.mod_pos_bound c1 256 ltac:(lia)) as N1.
  pose proof (Z.mod_pos_bound c2 256 ltac:(lia)) as N2.
  split; intros Heq; lia.
Qed.

Lemma shifted_bytes_eq (units1 units2 : list Z) :
  map Js.toUint8 (0 :: map (fun code => code + 63) units1)
  = map Js.toUint8 (0 :: map (fun code => code + 63) units2)
  ↔ map (fun code => code mod 256) units1 = map (fun code => code mod 256) units2.
Proof.
  cbn [map]. revert units2.
  induction units1 as [|c1 units1 IH]; intros [|c2 units2]; cbn [map];
    try (split; intros H; [discriminate H | discriminate H]).
  - split; reflexivity.
  - split.
    + intros [= Hc Hrest]. f_equal.
      * now apply shifted_byte_eq.
      * apply IH. now f_equal.
    + intros [= Hc Hrest]. f_equal. f_equal.
      * now apply shifted_byte_eq.
      * assert (Htail := proj2 (IH units2) Hrest). now injection Htail.
Qed.

(** The extra data built for an identifier keeps the code units of the
    identifier modulo 256, and no more: two identifiers get the same extra
    data exactly when their code units are pairwise congruent modulo 256.
    Identifiers of characters below 256, as the ASCII identifiers of the
    source, are thus told apart, whereas "A" (65) and the letter of code 321
    get the same extra data. The extra data has two characters for the
    leading byte and two for each code unit, and lower-casing leaves it as it
    is, so that it is found again by the comparison of [isProxyData]. *)
Theorem extra_data_keeps_code_units_mod_256 :
  (∀ identifier,
     proxyTransactionIdentifierToExtraData identifier
     = extraDataOfCodeUnits (map Js.charCodeAt0 (Js.split_chars identifier)))
  ∧ (∀ units1 units2,
       extraDataOfCodeUnits units1 = extraDataOfCodeUnits units2
       ↔ map (fun code => code mod 256) units1 = map (fun code => code mod 256) units2)
  ∧ (∀ units1 units2,
       (∀ code, In code units1 → 0 <= code < 256) →
       (∀ code, In code units2 → 0 <= code < 256) →
       extraDataOfCodeUnits units1 = extraDataOfCodeUnits units2 →
       units1 = units2)
  ∧ extraDataOfCodeUnits [65] = "0080"
  ∧ extraDataOfCodeUnits [321] = "0080"
  ∧ (∀ units,
       String.length (extraDataOfCodeUnits units) = (2 * (length units + 1))%nat)
  ∧ (∀ units,
       Js.toLowerCase (extraDataOfCodeUnits units) = extraDataOfCodeUnits units).
Proof.
  assert (Hiff : ∀ units1 units2,
       extraDataOfCodeUnits units1 = extraDataOfCodeUnits units2
       ↔ map (fun code => code mod 256) units1 = map (fun code => code mod 256) units2).
  { intros units1 units2. rewrite !extraDataOfCodeUnits_bytes, <- shifted_bytes_eq.
    split; [|now intros ->].
    apply hexOfBytes_inj; apply codeUnitBytes_range. }
  split; [|split; [exact Hiff|split; [|split; [|split; [|split]]]]].
  - intros identifier.
    unfold proxyTransactionIdentifierToExtraData, extraDataOfCodeUnits.
    now rewrite List.map_map.
  - intros units1 units2 H1 H2 Heq. apply Hiff in Heq.
    assert (Hsmall : ∀ units, (∀ code, In code units → 0 <= code < 256) →
                              map (fun code => code mod 256) units = units).
    { induction units as [|c units IH]; intros Hall; [reflexivity|].
      cbn [map]. rewrite Z.mod_small by (apply Hall; now left).
      rewrite IH; [reflexivity | intros code Hc; apply Hall; now right]. }
    now rewrite (Hsmall units1 H1), (Hsmall units2 H2) in Heq.
  - vm_compute. reflexivity.
  - vm_compute. reflexivity.
  - intros units. rewrite extraDataOfCodeUnits_bytes, hexOfBytes_length.
    rewrite length_map. cbn [length]. rewrite length_map. lia.
  - intros units. rewrite extraDataOfCodeUnits_bytes.
    apply hexOfBytes_lowercase, codeUnitBytes_range.
Qed.

(** The code units 65 and 321 are congruent modulo 256. *)
Lemma extra_data_keeps_code_units_mod_256_witness :
  map (fun code => code mod 256) [65] = map (fun code => code mod 256) [321].
Proof.
  exact (proj1 (proj1 (proj2 extra_data_keeps_code_units_mod_256) [65] [321]) eq_refl).
Defined.

Lemma toLowerCase_length (s : string) : String.length (Js.toLowerCase s) = String.length s.
Proof. induction s as [|c s IH]; cbn; [reflexivity | now rewrite IH]. Qed.

(** A string is proxy data for one kind and one direction at most, and only
    if it has the ten characters of a tag: the empty string and any other
    extra data are no proxy data, under whatever filter. *)
Theorem proxy_data_is_one_tag (data : string) :
  (∀ type dir type' dir',
     isProxyData data (Some type) (Some dir) = true →
     isProxyData data (Some type') (Some dir') = true →
     type = type' ∧ dir = dir')
  ∧ (∀ proxyType direction,
       isProxyData data proxyType direction = true →
       String.length data = 10%nat
       ∧ ∃ type dir, isProxyData data (Some type) (Some dir) = true
                     ∧ (proxyType = None ∨ proxyType = Some type)
                     ∧ (direction = None ∨ direction = Some dir))
  ∧ (∀ proxyType direction, isProxyData "" proxyType direction = false).
Proof.
  split; [|split].
  - intros type dir type' dir' H1 H2.
    apply isProxyData_lowercase in H1 as (t1 & d1 & [[=]|[= <-]] & [[=]|[= <-]] & E1).
    apply isProxyData_lowercase in H2 as (t2 & d2 & [[=]|[= <-]] & [[=]|[= <-]] & E2).
    rewrite E1 in E2. destruct type, dir, type', dir'; vm_compute in E2; try discriminate; auto.
  - intros proxyType direction H.
    apply isProxyData_lowercase in H as (type & dir & Htype & Hdir & Heq). split.
    + rewrite <- toLowerCase_length, Heq. destruct type, dir; reflexivity.
    + exists type, dir. split; [|auto].
      apply isProxyData_lowercase. exists type, dir. auto.
  - intros [[]|] [[]|]; vm_compute; reflexivity.
Qed.

(** The tag of a cashlink funding, under the filter of the cashlinks. *)
Lemma proxy_data_is_one_tag_witness :
  String.length "0082809287" = 10%nat
  ∧ ∃ type dir, isProxyData "0082809287" (Some type) (Some dir) = true
                ∧ (Some CASHLINK = None ∨ Some CASHLINK = Some type)
                ∧ (@None ProxyTransactionDirection = None ∨ None = Some dir).
Proof.
  exact (proj1 (proj2 (proxy_data_is_one_tag "0082809287")) (Some CASHLINK) None eq_refl).
Defined.

(** ** Correlation matcher *)

Lemma handleProxyTransaction_Returns_inv stores tx known res :
  handleProxyTransaction stores tx known = Returns res →
  ∃ byHash,
    known !! getProxyAddress stores tx = Some byHash
    ∧ returned res
      = findRelatedTx stores tx (getProxyAddress stores tx) (Object_values byHash)
    ∧ needsSubscription res
      = needToSubscribeToProxy stores tx (returned res) (Object_values byHash)
    ∧ storeCall res
      = proxyStoreCall (needsSubscription res)
          (String.eqb (getProxyAddress stores tx) (recipient tx)) (getProxyAddress stores tx).
Proof.
  unfold handleProxyTransaction.
  destruct (known !! getProxyAddress stores tx) as [byHash|]; [|discriminate].
  intros [= <-]. exists byHash. auto.
Qed.

(** What the heuristic search returns is a known transaction at the proxy
    address that is not linked yet and neither invalidated nor expired, on
    the other side of the proxy than [tx]; for a redeeming [tx] it is never
    [tx] itself. *)
Theorem heuristic_result_is_linkable stores tx known res r :
  Js.truthyString (relatedTransactionHash tx) = false →
  handleProxyTransaction stores tx known = Returns res →
  returned res = Some r →
  ∃ byHash,
    known !! getProxyAddress stores tx = Some byHash
    ∧ In r (Object_values byHash)
    ∧ Js.truthyString (relatedTransactionHash r) = false
    ∧ state r ≠ INVALIDATED
    ∧ state r ≠ EXPIRED
    ∧ someAddressOwned stores tx r
    ∧ (if String.eqb (getProxyAddress stores tx) (recipient tx)
       then sender r = getProxyAddress stores tx
       else recipient r = getProxyAddress stores tx ∧ r ≠ tx).
Proof.
  intros Hrel Hres Hr.
  apply handleProxyTransaction_Returns_inv in Hres as (byHash & Hknown & Hret & _).
  exists byHash. split; [assumption|].
  rewrite Hret, findRelatedTx_heuristic in Hr by assumption.
  apply heuristicSearch_candidate, potentialRelatedTxs_In in Hr
    as (Hin & Hlink & Hinv & Hexp & Hown & Hrole & _).
  repeat (split; [assumption|]).
  destruct (String.eqb (getProxyAddress stores tx) (recipient tx)) eqn:Hp; cbn in Hrole.
  - assumption.
  - split; [assumption|]. apply String.eqb_neq in Hp. intros ->. congruence.
Qed.

(** The cashlink redeemer of 60 finds the funding of 100, sent to the
    proxy. *)
Lemma heuristic_result_is_linkable_witness :
  ∃ byHash,
    Scenario.knownAt Scenario.proxy
      [Scenario.F Scenario.tagCASH; Scenario.R 60 1 Scenario.tagLINK]
      !! getProxyAddress Scenario.walletOfBob (Scenario.R 60 1 Scenario.tagLINK)
    = Some byHash
    ∧ In (Scenario.F Scenario.tagCASH) (Object_values byHash)
    ∧ Js.truthyString (relatedTransactionHash (Scenario.F Scenario.tagCASH)) = false
    ∧ state (Scenario.F Scenario.tagCASH) ≠ INVALIDATED
    ∧ state (Scenario.F Scenario.tagCASH) ≠ EXPIRED
    ∧ someAddressOwned Scenario.walletOfBob (Scenario.R 60 1 Scenario.tagLINK)
        (Scenario.F Scenario.tagCASH)
    ∧ (recipient (Scenario.F Scenario.tagCASH) = Scenario.proxy
       ∧ Scenario.F Scenario.tagCASH ≠ Scenario.R 60 1 Scenario.tagLINK).
Proof.
  exact (heuristic_result_is_linkable Scenario.walletOfBob
           (Scenario.R 60 1 Scenario.tagLINK)
           (Scenario.knownAt Scenario.proxy
              [Scenario.F Scenario.tagCASH; Scenario.R 60 1 Scenario.tagLINK])
           {| returned := Some (Scenario.F Scenario.tagCASH); needsSubscription := false;
              storeCall := removeProxy Scenario.proxy |}
           (Scenario.F Scenario.tagCASH) eq_refl eq_refl eq_refl).
Defined.

(** Without an address of ours on either transaction nothing is linked: when
    neither [tx] nor any known transaction at the proxy address has a sender
    or recipient in the address store, the heuristic search finds nothing and
    the proxy stays subscribed. *)
Theorem nothing_linked_between_strangers stores tx known byHash :
  Js.truthyString (relatedTransactionHash tx) = false →
  known !! getProxyAddress stores tx = Some byHash →
  sender tx ∉ addressInfos stores →
  recipient tx ∉ addressInfos stores →
  (∀ c, In c (Object_values byHash) →
        (sender c ∉ addressInfos stores) ∧ (recipient c ∉ addressInfos stores)) →
  ∃ res,
    handleProxyTransaction stores tx known = Returns res
    ∧ returned res = None
    ∧ needsSubscription res = true
    ∧ (storeCall res = addFundedProxy (recipient tx)
       ∨ storeCall res = addClaimedProxy (sender tx)).
Proof.
  intros Hrel Hknown Hsnd Hrcp Hall.
  rewrite (handleProxyTransaction_returns _ _ _ _ Hknown). cbn zeta.
  eexists. split; [reflexivity|]. cbn [returned needsSubscription storeCall].
  assert (Hnone : findRelatedTx stores tx (getProxyAddress stores tx)
                    (Object_values byHash) = None).
  { rewrite findRelatedTx_heuristic by assumption.
    unfold heuristicSearch. apply pickClosest_None.
    destruct (potentialRelatedTxs _ _ _ _ _ _) as [|c l] eqn:Hc; [reflexivity|].
    assert (Hin : In c (c :: l)) by (left; reflexivity).
    rewrite <- Hc in Hin. apply potentialRelatedTxs_In in Hin as (Hin & _ & _ & _ & Hown & _).
    destruct (Hall c Hin) as [Hs Hr].
    destruct Hown as [H|[H|[H|H]]]; contradiction. }
  rewrite Hnone. repeat (split; [reflexivity|]).
  cbn [needToSubscribeToProxy proxyStoreCall]. unfold getProxyAddress.
  destruct (getProxyAddress_isFunding stores tx).
  - left. now rewrite String.eqb_refl.
  - destruct (String.eqb (sender tx) (recipient tx)) eqn:Heq.
    + apply String.eqb_eq in Heq. left. now rewrite Heq.
    + now right.
Qed.

(** A wallet without addresses sees the pending P and Q of other people. *)
Lemma nothing_linked_between_strangers_witness :
  ∃ res,
    handleProxyTransaction {| addressInfos := ∅; allProxies := [Scenario.proxy] |} Scenario.P
      (Scenario.knownAt Scenario.proxy [Scenario.P; Scenario.Q]) = Returns res
    ∧ returned res = None
    ∧ needsSubscription res = true
    ∧ (storeCall res = addFundedProxy (recipient Scenario.P)
       ∨ storeCall res = addClaimedProxy (sender Scenario.P)).
Proof.
  apply (nothing_linked_between_strangers
           {| addressInfos := ∅; allProxies := [Scenario.proxy] |} Scenario.P
           (Scenario.knownAt Scenario.proxy [Scenario.P; Scenario.Q])
           [(transactionHash Scenario.P, Scenario.P);
            (transactionHash Scenario.Q, Scenario.Q)]).
  - reflexivity.
  - reflexivity.
  - apply not_elem_of_empty.
  - apply not_elem_of_empty.
  - intros c _. split; apply not_elem_of_empty.
Defined.

(** The two legs see each other: a redeeming candidate of a funding [tx]
    has [tx] as a funding candidate of its own search, and conversely,
    provided the transaction searched from is itself not linked and neither
    invalidated nor expired, and both searches run with the same cashlink
    setting. *)
Theorem candidates_are_mutual stores tx proxyAddress isCashlink isFunding c :
  isPotentialRelatedTx stores tx proxyAddress isCashlink isFunding c = true →
  (if isFunding then recipient tx = proxyAddress else sender tx = proxyAddress) →
  Js.truthyString (relatedTransactionHash tx) = false →
  state tx ≠ INVALIDATED →
  state tx ≠ EXPIRED →
  isPotentialRelatedTx stores c proxyAddress isCashlink (negb isFunding) tx = true.
Proof.
  rewrite !isPotentialRelatedTx_true.
  intros (Hlink & Hinv & Hexp & Hown & Hrole & Hchrono & Hamount) Hside Hrel Hs1 Hs2.
  repeat (split; [assumption|]).
  split; [unfold someAddressOwned in *; tauto|].
  split; [destruct isFunding; exact Hside|].
  unfold chronologicalCheck, spec_amountCheck in *.
  rewrite (selectedField_sym c tx).
  destruct (selectedField tx c), isFunding, isCashlink; cbn [negb fieldValue] in *; lia.
Qed.

(** The pending P and Q are candidates of each other. *)
Lemma candidates_are_mutual_witness :
  isPotentialRelatedTx Scenario.wallet Scenario.Q Scenario.proxy false false Scenario.P = true.
Proof.
  apply (candidates_are_mutual Scenario.wallet Scenario.P Scenario.proxy false true Scenario.Q).
  - reflexivity.
  - reflexivity.
  - reflexivity.
  - discriminate.
  - discriminate.
Defined.

Lemma existsb_same_members {A : Type} (f : A → bool) (l1 l2 : list A) :
  (∀ x, In x l1 ↔ In x l2) → existsb f l1 = existsb f l2.
Proof.
  intros Hmem. apply eq_iff_eq_true. rewrite !existsb_exists.
  split; intros (x & Hin & Hx); exists x; split; try assumption; now apply Hmem.
Qed.

(** The enumeration order of the store does not matter when no two
    candidates tie: for two collections of known transactions with the same
    members, whose surviving candidates are all compared on one field and
    have pairwise different values of it, the whole outcome of the call is
    the same. *)
Theorem outcome_independent_of_order_without_ties stores tx known1 known2 byHash1 byHash2 f :
  Js.truthyString (relatedTransactionHash tx) = false →
  known1 !! getProxyAddress stores tx = Some byHash1 →
  known2 !! getProxyAddress stores tx = Some byHash2 →
  (∀ x, In x (Object_values byHash1) ↔ In x (Object_values byHash2)) →
  (∀ a b,
     In a (potentialRelatedTxs stores tx (getProxyAddress stores tx)
             (isProxyData (raw (data tx)) (Some CASHLINK) None)
             (String.eqb (getProxyAddress stores tx) (recipient tx))
             (Object_values byHash1)) →
     In b (potentialRelatedTxs stores tx (getProxyAddress stores tx)
             (isProxyData (raw (data tx)) (Some CASHLINK) None)
             (String.eqb (getProxyAddress stores tx) (recipient tx))
             (Object_values byHash1)) →
     selectedField a b = f ∧ (fieldValue f a = fieldValue f b → a = b)) →
  handleProxyTransaction stores tx known1 = handleProxyTransaction stores tx known2.
Proof.
  intros Hrel Hk1 Hk2 Hmem Hf.
  rewrite (handleProxyTransaction_returns _ _ _ _ Hk1),
    (handleProxyTransaction_returns _ _ _ _ Hk2). cbn zeta.
  set (p := getProxyAddress stores tx) in *.
  set (isFunding := String.eqb p (recipient tx)) in *.
  set (isCashlink := isProxyData (raw (data tx)) (Some CASHLINK) None) in *.
  set (c1 := potentialRelatedTxs stores tx p isCashlink isFunding (Object_values byHash1)) in *.
  set (c2 := potentialRelatedTxs stores tx p isCashlink isFunding (Object_values byHash2)).
  assert (Hc : ∀ x, In x c1 ↔ In x c2).
  { intros x. unfold c1, c2, potentialRelatedTxs. rewrite !filter_In, Hmem. reflexivity. }
  assert (Hfind : findRelatedTx stores tx p (Object_values byHash1)
                  = findRelatedTx stores tx p (Object_values byHash2)).
  { rewrite !findRelatedTx_heuristic by assumption. unfold heuristicSearch.
    fold isFunding isCashlink c1 c2.
    destruct c1 as [|x1 l1] eqn:E1.
    - destruct c2 as [|x2 l2] eqn:E2; [reflexivity|].
      exfalso. apply (Hc x2). left. reflexivity.
    - assert (Hne1 : c1 ≠ []) by (rewrite E1; discriminate).
      assert (Hne2 : c2 ≠ []).
      { intros E2. assert (Hin : In x1 c2) by (apply Hc; left; reflexivity).
        rewrite E2 in Hin. destruct Hin. }
      rewrite <- E1 in *.
      destruct (pickClosest_first_closest isFunding (fieldValue f) c1 Hne1)
        as (g1 & r1 & g1' & Hs1 & Hp1 & Hb1 & Ha1).
      { intros a b Ha Hb. apply closerThanBest_uniform. now apply Hf. }
      destruct (pickClosest_first_closest isFunding (fieldValue f) c2 Hne2)
        as (g2 & r2 & g2' & Hs2 & Hp2 & Hb2 & Ha2).
      { intros a b Ha Hb. apply closerThanBest_uniform. apply Hf; now apply Hc. }
      rewrite Hp1, Hp2. f_equal.
      assert (Hr1 : In r1 c1) by (rewrite Hs1; apply in_elt).
      assert (Hr2 : In r2 c2) by (rewrite Hs2; apply in_elt).
      assert (Hle : ∀ c g r g', c = g ++ r :: g' →
                (∀ x, In x g → isCloser isFunding (fieldValue f r) (fieldValue f x) = true) →
                (∀ x, In x g' → isCloser isFunding (fieldValue f x) (fieldValue f r) = false) →
                ∀ x, In x c →
                  if isFunding then fieldValue f r <= fieldValue f x
                  else fieldValue f x <= fieldValue f r).
      { intros c g r g' -> Hb Ha x Hx. apply in_app_or in Hx as [Hx|[<-|Hx]].
        - apply Hb, isCloser_true in Hx. destruct isFunding; lia.
        - destruct isFunding; lia.
        - apply Ha, isCloser_false in Hx. exact Hx. }
      pose proof (Hle c1 g1 r1 g1' Hs1 Hb1 Ha1 r2 (proj2 (Hc r2) Hr2)) as L1.
      pose proof (Hle c2 g2 r2 g2' Hs2 Hb2 Ha2 r1 (proj1 (Hc r1) Hr1)) as L2.
      apply (Hf r1 r2 Hr1 (proj2 (Hc r2) Hr2)).
      destruct isFunding; lia. }
  rewrite Hfind.
  assert (Hneed : needToSubscribeToProxy stores tx
                    (findRelatedTx stores tx p (Object_values byHash2)) (Object_values byHash1)
                  = needToSubscribeToProxy stores tx
                    (findRelatedTx stores tx p (Object_values byHash2)) (Object_values byHash2)).
  { unfold needToSubscribeToProxy.
    destruct (findRelatedTx stores tx p (Object_values byHash2)); [|reflexivity].
    now apply existsb_same_members. }
  now rewrite Hneed.
Qed.

(** The funding F with its redeemers R1 and R2, enumerated in two orders. *)
Lemma outcome_independent_of_order_without_ties_witness :
  handleProxyTransaction Scenario.wallet (Scenario.F Scenario.tagHPFD)
    (Scenario.knownAt Scenario.proxy
       [Scenario.F Scenario.tagHPFD; Scenario.R1; Scenario.R2])
  = handleProxyTransaction Scenario.wallet (Scenario.F Scenario.tagHPFD)
      (Scenario.knownAt Scenario.proxy
         [Scenario.R2; Scenario.R1; Scenario.F Scenario.tagHPFD]).
Proof.
  apply (outcome_independent_of_order_without_ties Scenario.wallet
           (Scenario.F Scenario.tagHPFD) _ _
           (map (fun t => (transactionHash t, t))
              [Scenario.F Scenario.tagHPFD; Scenario.R1; Scenario.R2])
           (map (fun t => (transactionHash t, t))
              [Scenario.R2; Scenario.R1; Scenario.F Scenario.tagHPFD])
           ByTimestamp).
  - reflexivity.
  - reflexivity.
  - reflexivity.
  - intros x. cbn [Object_values map snd In]. tauto.
  - intros a b Ha Hb. vm_compute in Ha, Hb.
    destruct Ha as [<-|[<-|[]]], Hb as [<-|[<-|[]]];
      (split; [reflexivity | vm_compute; intros H; try reflexivity; discriminate H]).
Defined.

(** The call to the proxy store is about the address that
    [getProxyAddress] returns, the recipient or the sender of [tx]. The proxy
    is removed only when a related transaction was found, and it is recorded
    as claimed only for a transaction that is not sent from an address of
    ours, does not carry a funding tag and is not sent to a tracked proxy. *)
Theorem store_call_follows_the_search stores tx known res :
  handleProxyTransaction stores tx known = Returns res →
  (getProxyAddress stores tx = recipient tx ∨ getProxyAddress stores tx = sender tx)
  ∧ (storeCall res = addFundedProxy (getProxyAddress stores tx)
     ∨ storeCall res = addClaimedProxy (getProxyAddress stores tx)
     ∨ storeCall res = removeProxy (getProxyAddress stores tx))
  ∧ (∀ address, storeCall res = removeProxy address →
       needsSubscription res = false ∧ ∃ r, returned res = Some r)
  ∧ (∀ address, storeCall res = addClaimedProxy address →
       address = sender tx
       ∧ sender tx ≠ recipient tx
       ∧ (sender tx ∉ addressInfos stores)
       ∧ ¬ In (recipient tx) (allProxies stores)
       ∧ isProxyData (raw (data tx)) None (Some FUND) = false).
Proof.
  intros Hres.
  apply handleProxyTransaction_Returns_inv in Hres as (byHash & Hknown & Hret & Hneed & Hcall).
  split; [|split; [|split]].
  - unfold getProxyAddress. destruct (getProxyAddress_isFunding stores tx); auto.
  - rewrite Hcall. unfold proxyStoreCall.
    destruct (needsSubscription res), (String.eqb _ (recipient tx)); auto.
  - intros address Hrm. rewrite Hcall in Hrm. unfold proxyStoreCall in Hrm.
    destruct (needsSubscription res) eqn:Hn;
      [destruct (String.eqb _ (recipient tx)); discriminate|].
    split; [reflexivity|].
    rewrite Hneed in Hn. destruct (returned res) as [r|]; [eauto | discriminate].
  - intros address Hcl. rewrite Hcall in Hcl. unfold proxyStoreCall in Hcl.
    destruct (needsSubscription res); [|discriminate].
    destruct (String.eqb (getProxyAddress stores tx) (recipient tx)) eqn:Hp; [discriminate|].
    injection Hcl as <-. apply String.eqb_neq in Hp.
    unfold getProxyAddress in *.
    destruct (getProxyAddress_isFunding stores tx) eqn:Hfund; [congruence|].
    split; [reflexivity|]. split; [assumption|].
    assert (Hnot : ¬ (isProxyData (raw (data tx)) None (Some FUND) = true
                      ∨ sender tx ∈ addressInfos stores
                      ∨ In (recipient tx) (allProxies stores))).
    { rewrite <- getProxyAddress_isFunding_true. congruence. }
    split; [tauto|]. split; [tauto|].
    destruct (isProxyData (raw (data tx)) None (Some FUND)); [tauto | reflexivity].
Qed.

(** The HTLC redeemer of 60 with fee 1, for which no funding fits: the
    proxy, its sender, is recorded as claimed. *)
Lemma store_call_follows_the_search_witness :
  (getProxyAddress Scenario.walletOfBob (Scenario.R 60 1 Scenario.tagHPRD)
   = recipient (Scenario.R 60 1 Scenario.tagHPRD)
   ∨ getProxyAddress Scenario.walletOfBob (Scenario.R 60 1 Scenario.tagHPRD)
     = sender (Scenario.R 60 1 Scenario.tagHPRD))
  ∧ Scenario.proxy = sender (Scenario.R 60 1 Scenario.tagHPRD)
  ∧ sender (Scenario.R 60 1 Scenario.tagHPRD) ≠ recipient (Scenario.R 60 1 Scenario.tagHPRD).
Proof.
  pose proof (store_call_follows_the_search Scenario.walletOfBob
                (Scenario.R 60 1 Scenario.tagHPRD)
                (Scenario.knownAt Scenario.proxy
                   [Scenario.F Scenario.tagHPFD; Scenario.R 60 1 Scenario.tagHPRD])
                {| returned := None; needsSubscription := true;
                   storeCall := addClaimedProxy Scenario.proxy |}
                eq_refl) as (Hside & _ & _ & Hclaimed).
  destruct (Hclaimed Scenario.proxy eq_refl) as (Hsender & Hne & _).
  split; [exact Hside|]. split; [exact Hsender | exact Hne].
Defined.

(** A known transaction that is already linked, invalidated or expired has
    no part in the heuristic search: with or without it in the store, the
    same related transaction is returned. *)
Theorem unlinkable_known_transaction_is_ignored stores tx known1 known2 before x after :
  Js.truthyString (relatedTransactionHash tx) = false →
  known1 !! getProxyAddress stores tx = Some (before ++ x :: after) →
  known2 !! getProxyAddress stores tx = Some (before ++ after) →
  Js.truthyString (relatedTransactionHash x.2) = true
    ∨ state x.2 = INVALIDATED ∨ state x.2 = EXPIRED →
  ∃ res1 res2,
    handleProxyTransaction stores tx known1 = Returns res1
    ∧ handleProxyTransaction stores tx known2 = Returns res2
    ∧ returned res1 = returned res2.
Proof.
  intros Hrel Hk1 Hk2 Hx.
  rewrite (handleProxyTransaction_returns _ _ _ _ Hk1),
    (handleProxyTransaction_returns _ _ _ _ Hk2). cbn zeta.
  eexists. eexists. split; [reflexivity|]. split; [reflexivity|]. cbn [returned].
  rewrite !findRelatedTx_heuristic by assumption.
  unfold heuristicSearch, potentialRelatedTxs, Object_values.
  rewrite !List.map_app, !List.filter_app. cbn [map List.filter].
  assert (Hout : isPotentialRelatedTx stores tx (getProxyAddress stores tx)
                   (isProxyData (raw (data tx)) (Some CASHLINK) None)
                   (String.eqb (getProxyAddress stores tx) (recipient tx)) x.2 = false).
  { apply not_true_is_false. intros Hc.
    apply isPotentialRelatedTx_true in Hc as (Hlink & Hinv & Hexp & _).
    destruct Hx as [H|[H|H]]; congruence. }
  now rewrite Hout.
Qed.

(** The fundings F1 and F2 and the redeemer of 100, with and without an
    expired funding of 100 between them. *)
Lemma unlinkable_known_transaction_is_ignored_witness :
  ∃ res1 res2,
    handleProxyTransaction Scenario.wallet (Scenario.R 100 0 Scenario.tagHPRD)
      (Scenario.knownAt Scenario.proxy
         [Scenario.F1;
          Scenario.mkTx "E" Scenario.alice Scenario.proxy 100 0 (Some 1800) (Some 18) 17
            EXPIRED None Scenario.tagHPFD;
          Scenario.F2; Scenario.R 100 0 Scenario.tagHPRD]) = Returns res1
    ∧ handleProxyTransaction Scenario.wallet (Scenario.R 100 0 Scenario.tagHPRD)
        (Scenario.knownAt Scenario.proxy
           [Scenario.F1; Scenario.F2; Scenario.R 100 0 Scenario.tagHPRD]) = Returns res2
    ∧ returned res1 = returned res2.
Proof.
  apply (unlinkable_known_transaction_is_ignored Scenario.wallet
           (Scenario.R 100 0 Scenario.tagHPRD) _ _
           [(transactionHash Scenario.F1, Scenario.F1)]
           ("E", Scenario.mkTx "E" Scenario.alice Scenario.proxy 100 0 (Some 1800) (Some 18) 17
                   EXPIRED None Scenario.tagHPFD)
           [(transactionHash Scenario.F2, Scenario.F2);
            (transactionHash (Scenario.R 100 0 Scenario.tagHPRD),
             Scenario.R 100 0 Scenario.tagHPRD)]).
  - reflexivity.
  - reflexivity.
  - reflexivity.
  - right. right. reflexivity.
Defined.

(** * Properties of the staking store *)

Lemma totalsOfEntries_fmap (stakes : gmap string Staking.Stake) :
  Staking.totalsOfEntries stakes = Staking.stakeTotal <$> stakes.
Proof.
  unfold Staking.totalsOfEntries.
  rewrite <- (list_to_map_to_list stakes) at 2.
  rewrite <- list_to_map_fmap.
  induction (map_to_list stakes) as [|[k v] l IH]; [reflexivity|].
  cbn. now rewrite IH.
Qed.

Lemma setStake_keyed stake state :
  Staking.keyedByAddress state → Staking.keyedByAddress (Staking.setStake stake state).
Proof.
  intros Hkeyed key s. cbn [Staking.setStake Staking.stakeByAddress].
  rewrite lookup_insert. case_decide as Hk.
  - intros [= <-]. exact Hk.
  - apply Hkeyed.
Qed.

Lemma fold_setStakes_keyed (stakes : list Staking.Stake) (m : gmap string Staking.Stake) :
  (∀ key s, m !! key = Some s → Staking.address s = key) →
  ∀ key s,
    fold_left (fun newStakes stake => <[Staking.address stake := stake]> newStakes) stakes m
      !! key = Some s →
    Staking.address s = key.
Proof.
  revert m. induction stakes as [|x stakes IH]; intros m Hm; [exact Hm|].
  cbn [fold_left]. apply IH. intros key s. rewrite lookup_insert. case_decide as Hk.
  - intros [= <-]. exact Hk.
  - apply Hm.
Qed.

(** Every stake is stored under its own address: this holds after
    [setStakes], whatever the state was, and [setStake], [patchStake],
    [removeStake] and [setStakingEvents] keep it. Under it, [patchStake]
    changes the stake at the given address and no other entry. *)
Theorem stakes_stay_keyed_by_address :
  (∀ stakes state, Staking.keyedByAddress (Staking.setStakes stakes state))
  ∧ (∀ stake state,
       Staking.keyedByAddress state → Staking.keyedByAddress (Staking.setStake stake state))
  ∧ (∀ addr patch state,
       Staking.keyedByAddress state →
       Staking.keyedByAddress (Staking.patchStake addr patch state))
  ∧ (∀ addr state,
       Staking.keyedByAddress state → Staking.keyedByAddress (Staking.removeStake addr state))
  ∧ (∀ addr events state,
       Staking.keyedByAddress state →
       Staking.keyedByAddress (Staking.setStakingEvents addr events state))
  ∧ (∀ addr patch state,
       Staking.keyedByAddress state →
       Staking.stakeByAddress (Staking.patchStake addr patch state) !! addr
       = (fun stake => Staking.applyPatch stake patch)
           <$> Staking.stakeByAddress state !! addr
       ∧ ∀ other, other ≠ addr →
           Staking.stakeByAddress (Staking.patchStake addr patch state) !! other
           = Staking.stakeByAddress state !! other).
Proof.
  split; [|split; [|split; [|split; [|split]]]].
  - intros stakes state key s. cbn [Staking.setStakes Staking.stakeByAddress].
    apply fold_setStakes_keyed. intros k x. rewrite lookup_empty. discriminate.
  - apply setStake_keyed.
  - intros addr patch state Hkeyed. unfold Staking.patchStake.
    destruct (Staking.stakeByAddress state !! addr); [|assumption].
    now apply setStake_keyed.
  - intros addr state Hkeyed key s. cbn [Staking.removeStake Staking.stakeByAddress].
    intros Hs. apply lookup_delete_Some in Hs as [_ Hs]. now apply Hkeyed.
  - intros addr events state Hkeyed. exact Hkeyed.
  - intros addr patch state Hkeyed. unfold Staking.patchStake.
    destruct (Staking.stakeByAddress state !! addr) as [stake|] eqn:Hstake.
    + pose proof (Hkeyed _ _ Hstake) as Haddr.
      cbn [Staking.setStake Staking.stakeByAddress Staking.applyPatch Staking.address].
      rewrite Haddr. split.
      * now rewrite lookup_insert_eq.
      * intros other Hne. now rewrite lookup_insert_ne.
    + rewrite Hstake. split; [reflexivity | reflexivity].
Qed.

(** A stake of Alice, patched to a new active balance. *)
Lemma stakes_stay_keyed_by_address_witness :
  Staking.stakeByAddress
    (Staking.patchStake "NQ11 ALICE"
       {| Staking.patchActiveBalance := Some 70; Staking.patchInactiveBalance := None;
          Staking.patchInactiveRelease := None; Staking.patchValidator := None;
          Staking.patchRetiredBalance := None |}
       (Staking.setStakes
          [{| Staking.address := "NQ11 ALICE"; Staking.activeBalance := 50;
              Staking.inactiveBalance := 5; Staking.inactiveRelease := None;
              Staking.validator := Some "NQ33 VALIDATOR"; Staking.retiredBalance := 0 |}]
          {| Staking.stakeByAddress := ∅; Staking.stakingEventsByAddress := ∅ |}))
    !! "NQ11 ALICE"
  = Some {| Staking.address := "NQ11 ALICE"; Staking.activeBalance := 70;
            Staking.inactiveBalance := 5; Staking.inactiveRelease := None;
            Staking.validator := Some "NQ33 VALIDATOR"; Staking.retiredBalance := 0 |}.
Proof.
  exact (proj1 (proj2 (proj2 (proj2 (proj2 (proj2 stakes_stay_keyed_by_address))))
                  "NQ11 ALICE" _ _
                  (proj1 stakes_stay_keyed_by_address _ _))).
Defined.

Lemma fold_setStakes_lookup (stakes : list Staking.Stake) (m : gmap string Staking.Stake)
    (addr : string) :
  fold_left (fun newStakes stake => <[Staking.address stake := stake]> newStakes) stakes m
    !! addr
  = match List.find (fun stake => String.eqb (Staking.address stake) addr) (rev stakes) with
    | Some stake => Some stake
    | None => m !! addr
    end.
Proof.
  induction stakes as [|x stakes IH] using rev_ind; [reflexivity|].
  rewrite fold_left_app, rev_unit. cbn [fold_left List.find].
  rewrite lookup_insert.
  destruct (String.eqb (Staking.address x) addr) eqn:Hx.
  - apply String.eqb_eq in Hx. now rewrite decide_True.
  - apply String.eqb_neq in Hx. rewrite decide_False by assumption. exact IH.
Qed.

(** [setStakes] replaces all the stakes: afterwards the stake at an address
    is the last one of the given list with that address, and there is none
    when the list has no stake for it, whatever the state held before. *)
Theorem setStakes_last_stake_wins (stakes : list Staking.Stake)
    (state : Staking.StakingState) (addr : string) :
  Staking.stakeByAddress (Staking.setStakes stakes state) !! addr
  = List.find (fun stake => String.eqb (Staking.address stake) addr) (rev stakes)
  ∧ Staking.stakingEventsByAddress (Staking.setStakes stakes state)
    = Staking.stakingEventsByAddress state.
Proof.
  split; [|reflexivity].
  cbn [Staking.setStakes Staking.stakeByAddress].
  rewrite fold_setStakes_lookup, lookup_empty.
  now destruct (List.find _ (rev stakes)).
Qed.

(** The totals follow the actions: after [setStake] the total at the
    address of the stake is the sum of its three balances and the other
    totals are as before, after [removeStake] the address has no total, and
    the total of the active address is its entry of the totals, or zero. *)
Theorem totals_follow_the_stakes :
  (∀ stake state,
     Staking.totalStakesByAddress (Staking.setStake stake state)
     = <[Staking.address stake := Staking.activeBalance stake
           + Staking.inactiveBalance stake + Staking.retiredBalance stake]>
         (Staking.totalStakesByAddress state))
  ∧ (∀ addr state,
       Staking.totalStakesByAddress (Staking.removeStake addr state)
       = delete addr (Staking.totalStakesByAddress state))
  ∧ (∀ state addr,
       Staking.totalStakesByAddress state !! addr
       = Staking.stakeTotal <$> Staking.stakeByAddress state !! addr)
  ∧ (∀ state addr,
       addr ≠ "" →
       Staking.totalActiveStake state (Some addr)
       = default 0 (Staking.totalStakesByAddress state !! addr))
  ∧ (∀ state, Staking.totalActiveStake state None = 0
              ∧ Staking.totalActiveStake state (Some "") = 0).
Proof.
  split; [|split; [|split; [|split]]].
  - intros stake state. unfold Staking.totalStakesByAddress.
    rewrite !totalsOfEntries_fmap. cbn [Staking.setStake Staking.stakeByAddress].
    now rewrite fmap_insert.
  - intros addr state. unfold Staking.totalStakesByAddress.
    rewrite !totalsOfEntries_fmap. cbn [Staking.removeStake Staking.stakeByAddress].
    now rewrite fmap_delete.
  - intros state addr. unfold Staking.totalStakesByAddress.
    now rewrite totalsOfEntries_fmap, lookup_fmap.
  - intros state addr Hne. unfold Staking.totalActiveStake, Staking.activeStake,
      Staking.totalStakesByAddress.
    rewrite totalsOfEntries_fmap, lookup_fmap. cbn [Js.truthyString default].
    apply String.eqb_neq in Hne. rewrite Hne. cbn [negb].
    change (id addr) with addr.
    now destruct (Staking.stakeByAddress state !! addr).
  - intros state. split; reflexivity.
Qed.

(** The total of an address that is the active one. *)
Lemma totals_follow_the_stakes_witness :
  Staking.totalActiveStake {| Staking.stakeByAddress := ∅; Staking.stakingEventsByAddress := ∅ |}
    (Some "NQ11 ALICE")
  = default 0
      (Staking.totalStakesByAddress
         {| Staking.stakeByAddress := ∅; Staking.stakingEventsByAddress := ∅ |}
         !! "NQ11 ALICE").
Proof.
  exact (proj1 (proj2 (proj2 (proj2 totals_follow_the_stakes))) _ "NQ11 ALICE"
           ltac:(discriminate)).
Defined.

Lemma stakeTotal_addBalances (accountStake stake : Staking.Stake) :
  Staking.stakeTotal (Staking.addBalances accountStake stake)
  = Staking.stakeTotal accountStake + Staking.stakeTotal stake.
Proof. unfold Staking.stakeTotal, Staking.addBalances. cbn. lia. Qed.

(** The inner loop adds the totals at the addresses to the entry of the
    account, creates this entry at most, and leaves the other entries. *)
Lemma cumulateAddress_fold (state : Staking.StakingState) (accountId : string)
    (addrs : list string) :
  ∀ stakes : gmap string Staking.Stake,
    let stakes' := fold_left (Staking.cumulateAddress state accountId) addrs stakes in
    (∀ other, other ≠ accountId → stakes' !! other = stakes !! other)
    ∧ from_option Staking.stakeTotal 0 (stakes' !! accountId)
      = from_option Staking.stakeTotal 0 (stakes !! accountId)
        + fold_right Z.add 0 (map (Staking.totalAt state) addrs)
    ∧ (is_Some (stakes !! accountId) → is_Some (stakes' !! accountId)).
Proof.
  induction addrs as [|addr addrs IH]; intros stakes; cbn zeta.
  - cbn [fold_left map fold_right]. split; [auto|]. split; [lia | auto].
  - cbn [fold_left map fold_right].
    destruct (IH (Staking.cumulateAddress state accountId stakes addr)) as (Hother & Htotal & Hsome).
    unfold Staking.cumulateAddress in *. unfold Staking.totalAt at 1.
    destruct (Staking.stakeByAddress state !! addr) as [stake|]; cbn [from_option].
    + destruct (stakes !! accountId) as [accountStake|] eqn:Hacc.
      * rewrite lookup_insert_eq in Htotal, Hsome. cbn [from_option] in *.
        rewrite stakeTotal_addBalances in Htotal.
        split; [|split; [lia | intros _; apply Hsome; eauto]].
        intros other Hne. rewrite Hother by assumption. now rewrite lookup_insert_ne.
      * rewrite lookup_insert_eq in Htotal, Hsome. cbn [from_option] in *.
        split; [|split; [lia | intros _; apply Hsome; eauto]].
        intros other Hne. rewrite Hother by assumption. now rewrite lookup_insert_ne.
    + split; [assumption|]. split; [lia | assumption].
Qed.

Lemma cumulateAccount_spec (state : Staking.StakingState)
    (stakes : gmap string Staking.Stake) (accountInfo : Staking.AccountInfo) :
  let stakes' := Staking.cumulateAccount state stakes accountInfo in
  (∀ other, other ≠ Staking.id accountInfo → stakes' !! other = stakes !! other)
  ∧ is_Some (stakes' !! Staking.id accountInfo)
  ∧ from_option Staking.stakeTotal 0 (stakes' !! Staking.id accountInfo)
    = from_option Staking.stakeTotal 0 (stakes !! Staking.id accountInfo)
      + fold_right Z.add 0 (map (Staking.totalAt state) (Staking.addresses accountInfo)).
Proof.
  cbn zeta. unfold Staking.cumulateAccount.
  destruct (cumulateAddress_fold state (Staking.id accountInfo)
              (Staking.addresses accountInfo) stakes) as (Hother & Htotal & Hsome).
  cbn zeta in *.
  destruct (fold_left _ (Staking.addresses accountInfo) stakes !! Staking.id accountInfo)
    as [accountStake|] eqn:Hacc.
  - rewrite Hacc. split; [assumption|]. split; [eauto | assumption].
  - rewrite lookup_insert_eq. split; [|split; [eauto|]].
    + intros other Hne. rewrite lookup_insert_ne by congruence. now apply Hother.
    + cbn [from_option] in *. unfold Staking.stakeTotal at 1. cbn. lia.
Qed.

Lemma cumulateAccount_fold (state : Staking.StakingState) (accountId : string)
    (accounts : list Staking.AccountInfo) :
  ∀ stakes : gmap string Staking.Stake,
    let stakes' := fold_left (Staking.cumulateAccount state) accounts stakes in
    from_option Staking.stakeTotal 0 (stakes' !! accountId)
    = from_option Staking.stakeTotal 0 (stakes !! accountId)
      + Staking.totalOfAccounts state accountId accounts
    ∧ (is_Some (stakes' !! accountId) ↔
         is_Some (stakes !! accountId)
         ∨ existsb (fun accountInfo => String.eqb (Staking.id accountInfo) accountId) accounts
           = true).
Proof.
  induction accounts as [|accountInfo accounts IH]; intros stakes; cbn zeta.
  - cbn [fold_left existsb]. unfold Staking.totalOfAccounts. cbn [map fold_right].
    split; [lia|]. split; [auto | intros [H|H]; [assumption | discriminate]].
  - cbn [fold_left existsb].
    destruct (IH (Staking.cumulateAccount state stakes accountInfo)) as (Htotal & Hsome).
    destruct (cumulateAccount_spec state stakes accountInfo) as (Hother & Hnew & Hsum).
    cbn zeta in *. rewrite Htotal, Hsome.
    unfold Staking.totalOfAccounts. cbn [map fold_right].
    fold (Staking.totalOfAccounts state accountId accounts).
    destruct (String.eqb (Staking.id accountInfo) accountId) eqn:Hid.
    + apply String.eqb_eq in Hid. subst accountId. rewrite Hsum.
      split; [lia|]. cbn [orb]. split; [auto | intros _; left; exact Hnew].
    + apply String.eqb_neq in Hid. rewrite Hother by congruence.
      split; [lia|]. cbn [orb]. reflexivity.
Qed.

(** The stake cumulated for an account is the sum of the stakes at its
    addresses: [totalStakesByAccount] has an entry exactly for the ids of the
    given accounts, and it is the sum, over the accounts with that id and
    over their addresses, of the three balances of the stake at the address
    (nothing for an address without stake). [totalAccountStake] is this sum
    for the active account, and zero without active account. *)
Theorem account_total_is_sum_of_address_totals (state : Staking.StakingState)
    (accounts : list Staking.AccountInfo) (accountId : string) :
  Staking.totalStakesByAccount state accounts !! accountId
  = (if existsb (fun accountInfo => String.eqb (Staking.id accountInfo) accountId) accounts
     then Some (Staking.totalOfAccounts state accountId accounts)
     else None)
  ∧ (accountId ≠ "" →
     Staking.totalAccountStake state accounts (Some accountId)
     = Staking.totalOfAccounts state accountId accounts)
  ∧ Staking.totalAccountStake state accounts None = 0
  ∧ (∀ accountInfo,
       accounts = [accountInfo] →
       Staking.id accountInfo = accountId →
       Staking.totalStakesByAccount state accounts !! accountId
       = Some (fold_right Z.add 0
                 (map (fun addr =>
                         from_option Staking.stakeTotal 0 (Staking.stakeByAddress state !! addr))
                      (Staking.addresses accountInfo)))).
Proof.
  assert (Hlookup : Staking.totalStakesByAccount state accounts !! accountId
    = (if existsb (fun accountInfo => String.eqb (Staking.id accountInfo) accountId) accounts
       then Some (Staking.totalOfAccounts state accountId accounts)
       else None)).
  { unfold Staking.totalStakesByAccount, Staking.stakesByAccount.
    rewrite totalsOfEntries_fmap, lookup_fmap.
    destruct (cumulateAccount_fold state accountId accounts ∅) as (Htotal & Hsome).
    cbn zeta in *. rewrite lookup_empty in Htotal, Hsome. cbn [from_option] in Htotal.
    destruct (existsb _ accounts).
    - destruct (proj2 Hsome (or_intror eq_refl)) as [stake Hstake].
      rewrite Hstake in *. cbn in *. f_equal. lia.
    - destruct (fold_left _ accounts ∅ !! accountId) as [stake|] eqn:Hstake; [|reflexivity].
      destruct (proj1 Hsome (ex_intro _ stake eq_refl)) as [[x Hx]|Hx]; discriminate. }
  assert (Hnone : ∀ l, existsb (fun accountInfo : Staking.AccountInfo =>
                                  String.eqb (Staking.id accountInfo) accountId) l = false →
                       Staking.totalOfAccounts state accountId l = 0).
  { induction l as [|x l IH]; [reflexivity|]. cbn [existsb]. intros H.
    apply orb_false_iff in H as [Hx Hl]. unfold Staking.totalOfAccounts. cbn [map fold_right].
    rewrite Hx. fold (Staking.totalOfAccounts state accountId l). rewrite IH by assumption. lia. }
  split; [exact Hlookup|]. split; [|split].
  - intros Hne. unfold Staking.totalAccountStake. cbn [Js.truthyString].
    apply String.eqb_neq in Hne. rewrite Hne. cbn [negb].
    change (default "" (Some accountId)) with accountId. rewrite Hlookup.
    destruct (existsb _ accounts) eqn:Hex; [reflexivity|].
    cbn. symmetry. now apply Hnone.
  - reflexivity.
  - intros accountInfo -> Hid. rewrite Hlookup. cbn [existsb].
    rewrite Hid, String.eqb_refl. cbn [orb]. f_equal.
    unfold Staking.totalOfAccounts. cbn [map fold_right].
    rewrite Hid, String.eqb_refl. unfold Staking.totalAt. lia.
Qed.

(** An account with two addresses, one of them with a stake. *)
Lemma account_total_is_sum_of_address_totals_witness :
  Staking.totalAccountStake
    (Staking.setStake
       {| Staking.address := "NQ11 ALICE"; Staking.activeBalance := 50;
          Staking.inactiveBalance := 5; Staking.inactiveRelease := None;
          Staking.validator := None; Staking.retiredBalance := 1 |}
       {| Staking.stakeByAddress := ∅; Staking.stakingEventsByAddress := ∅ |})
    [{| Staking.id := "account"; Staking.addresses := ["NQ11 ALICE"; "NQ22 BOB"] |}]
    (Some "account")
  = 56.
Proof.
  exact (proj1 (proj2 (account_total_is_sum_of_address_totals _ _ "account"))
           ltac:(discriminate)).
Defined.

Lemma fold_left_sum_events (events : list Staking.AddStakeEvent) (start : Z) :
  fold_left (fun sum event => sum + Staking.eventValue event) events start
  = start + fold_right Z.add 0 (map Staking.eventValue events).
Proof.
  revert start. induction events as [|e events IH]; intros start; cbn [fold_left map fold_right].
  - lia.
  - rewrite IH. lia.
Qed.

(** The restaking rewards of the active address are the sum of the values of
    its events of type 6: events of another type add nothing, the rewards of
    two lists of events add up, and an address with an empty list of events
    has the reward zero, whereas there is no reward (null) without active
    address or without events stored for it. *)
Theorem restaking_rewards_sum_type_6 :
  (∀ state addr events,
     addr ≠ "" →
     Staking.restakingRewards (Staking.setStakingEvents addr events state) (Some addr)
     = Some (fold_right Z.add 0
               (map (fun event =>
                       if Staking.type event =? 6 then Staking.eventValue event else 0)
                    events)))
  ∧ (∀ state addr events1 events2 r1 r2,
       addr ≠ "" →
       Staking.restakingRewards (Staking.setStakingEvents addr events1 state) (Some addr)
         = Some r1 →
       Staking.restakingRewards (Staking.setStakingEvents addr events2 state) (Some addr)
         = Some r2 →
       Staking.restakingRewards
         (Staking.setStakingEvents addr (events1 ++ events2) state) (Some addr)
       = Some (r1 + r2))
  ∧ (∀ state addr,
       Staking.restakingRewards state (Some addr) = None ↔
       addr = "" ∨ Staking.stakingEventsByAddress state !! addr = None)
  ∧ (∀ state, Staking.restakingRewards state None = None)
  ∧ (∀ state addr other events,
       other ≠ addr →
       Staking.restakingRewards (Staking.setStakingEvents other events state) (Some addr)
       = Staking.restakingRewards state (Some addr)).
Proof.
  assert (Hsum : ∀ state addr events,
     addr ≠ "" →
     Staking.restakingRewards (Staking.setStakingEvents addr events state) (Some addr)
     = Some (fold_right Z.add 0
               (map (fun event =>
                       if Staking.type event =? 6 then Staking.eventValue event else 0)
                    events))).
  { intros state addr events Hne.
    unfold Staking.restakingRewards, Staking.stakingEvents. cbn [Js.truthyString].
    apply String.eqb_neq in Hne. rewrite Hne. cbn [negb].
    change (default "" (Some addr)) with addr.
    cbn [Staking.setStakingEvents Staking.stakingEventsByAddress].
    rewrite lookup_insert_eq. f_equal. rewrite fold_left_sum_events.
    induction events as [|e events IH]; [reflexivity|].
    cbn [List.filter map fold_right].
    destruct (Staking.type e =? 6); cbn [map fold_right]; lia. }
  split; [exact Hsum|]. split; [|split; [|split]].
  - intros state addr events1 events2 r1 r2 Hne H1 H2.
    rewrite Hsum in * by assumption. injection H1 as <-. injection H2 as <-.
    f_equal. rewrite List.map_app.
    induction events1 as [|e events1 IH]; cbn [app map fold_right]; lia.
  - intros state addr. unfold Staking.restakingRewards, Staking.stakingEvents.
    cbn [Js.truthyString]. destruct (String.eqb addr "") eqn:Haddr; cbn [negb].
    + apply String.eqb_eq in Haddr. split; auto.
    + apply String.eqb_neq in Haddr. change (default "" (Some addr)) with addr.
      destruct (Staking.stakingEventsByAddress state !! addr).
      * split; [discriminate | intros [H|H]; [contradiction | discriminate]].
      * split; auto.
  - reflexivity.
  - intros state addr other events Hne.
    unfold Staking.restakingRewards, Staking.stakingEvents.
    destruct (negb (Js.truthyString (Some addr))); [reflexivity|].
    change (default "" (Some addr)) with addr.
    cbn [Staking.setStakingEvents Staking.stakingEventsByAddress].
    now rewrite lookup_insert_ne.
Qed.

(** One restaking of 7 among two events. *)
Lemma restaking_rewards_sum_type_6_witness :
  Staking.restakingRewards
    (Staking.setStakingEvents "NQ11 ALICE"
       [{| Staking.sender_address := "NQ33 VALIDATOR"; Staking.date := "2025-01-01";
           Staking.eventValue := 7; Staking.type := 6 |};
        {| Staking.sender_address := "NQ11 ALICE"; Staking.date := "2025-01-02";
           Staking.eventValue := 100; Staking.type := 5 |}]
       {| Staking.stakeByAddress := ∅; Staking.stakingEventsByAddress := ∅ |})
    (Some "NQ11 ALICE")
  = Some 7.
Proof.
  exact (proj1 restaking_rewards_sum_type_6 _ "NQ11 ALICE" _ ltac:(discriminate)).
Defined.

(** * Properties of the Bitcoin address subscriptions *)

Lemma subscribe_fold (addrs : list string) :
  ∀ (subscribed : gset string) (newAddresses : list string),
    ∃ added,
      fold_left Electrum.subscribeStep addrs (subscribed, newAddresses)
      = (list_to_set addrs ∪ subscribed, newAddresses ++ added)
      ∧ NoDup added
      ∧ ∀ a, In a added ↔ In a addrs ∧ a ∉ subscribed.
Proof.
  induction addrs as [|addr addrs IH]; intros subscribed newAddresses.
  - exists []. cbn [fold_left]. rewrite app_nil_r. split; [f_equal; set_solver|].
    split; [constructor | intros a; cbn; tauto].
  - cbn [fold_left]. unfold Electrum.subscribeStep at 2. cbn [fst snd].
    case_bool_decide as Hin.
    + destruct (IH subscribed newAddresses) as (added & -> & Hnodup & Hmem).
      exists added. split; [f_equal; set_solver|]. split; [assumption|].
      intros a. rewrite Hmem. cbn [In]. split; [tauto|].
      intros [[<-|H] Hnot]; [contradiction | tauto].
    + destruct (IH ({[addr]} ∪ subscribed) (newAddresses ++ [addr]))
        as (added & -> & Hnodup & Hmem).
      exists (addr :: added). split; [|split].
      * f_equal; [set_solver | now rewrite <- app_assoc].
      * apply NoDup_cons. split; [|assumption].
        rewrite list_elem_of_In, Hmem. set_solver.
      * intros a. cbn [In]. rewrite Hmem. split.
        -- intros [<-|[H Hnot]]; [tauto|]. split; [tauto | set_solver].
        -- intros [[<-|H] Hnot]; [tauto|].
           destruct (decide (a = addr)) as [->|Hne]; [tauto|].
           right. split; [assumption | set_solver].
Qed.

(** [subscribeToAddresses] adds a listener for each address once: the
    addresses passed to the client are those of the call that were not
    subscribed before, without repetition; all addresses of the call are
    subscribed afterwards; the client is not called when there is nothing
    new, as in a second call with the same addresses. *)
Theorem each_address_is_subscribed_once (subscribed : gset string) (addrs : list string) :
  (Electrum.subscribeToAddresses subscribed addrs).1 = list_to_set addrs ∪ subscribed
  ∧ match (Electrum.subscribeToAddresses subscribed addrs).2 with
    | Some newAddresses =>
        newAddresses ≠ []
        ∧ NoDup newAddresses
        ∧ ∀ a, In a newAddresses ↔ In a addrs ∧ a ∉ subscribed
    | None => ∀ a, In a addrs → a ∈ subscribed
    end
  ∧ Electrum.subscribeToAddresses (Electrum.subscribeToAddresses subscribed addrs).1 addrs
    = ((Electrum.subscribeToAddresses subscribed addrs).1, None).
Proof.
  assert (Hcall : ∀ (sub : gset string) l,
    (Electrum.subscribeToAddresses sub l).1 = list_to_set l ∪ sub
    ∧ match (Electrum.subscribeToAddresses sub l).2 with
      | Some newAddresses =>
          newAddresses ≠ [] ∧ NoDup newAddresses
          ∧ ∀ a, In a newAddresses ↔ In a l ∧ a ∉ sub
      | None => ∀ a, In a l → a ∈ sub
      end).
  { intros sub l. unfold Electrum.subscribeToAddresses. cbn zeta.
    destruct (subscribe_fold l sub []) as (added & -> & Hnodup & Hmem).
    cbn [fst snd app]. split; [reflexivity|].
    destruct added as [|a added]; cbn [length Nat.eqb].
    - intros a Ha. destruct (decide (a ∈ sub)) as [|Hnot]; [assumption|].
      destruct (proj2 (Hmem a) (conj Ha Hnot)).
    - split; [discriminate|]. split; assumption. }
  destruct (Hcall subscribed addrs) as (Hset & Hnew).
  split; [exact Hset|]. split; [exact Hnew|].
  destruct (Hcall (Electrum.subscribeToAddresses subscribed addrs).1 addrs) as (Hset' & Hnew').
  destruct (Electrum.subscribeToAddresses (Electrum.subscribeToAddresses subscribed addrs).1 addrs)
    as [sub' new'].
  cbn [fst snd] in *. f_equal.
  - rewrite Hset', Hset. set_solver.
  - destruct new' as [l|]; [|reflexivity].
    destruct Hnew' as (Hne & _ & Hmem). destruct l as [|a l]; [congruence|].
    destruct (proj1 (Hmem a) (or_introl eq_refl)) as [Ha Hnot].
    exfalso. apply Hnot. rewrite Hset. apply elem_of_union_l, elem_of_list_to_set.
    now apply list_elem_of_In.
Qed.

(** ** Unused external addresses *)

Lemma gapStep_fresh (gapLimit : Z) (fresh : list Electrum.BtcAddressInfo) :
  ∀ gap kept,
    (∀ x, In x fresh → Electrum.used x = false) →
    gap + Z.of_nat (length fresh) <= gapLimit →
    fold_left (Electrum.gapStep gapLimit) fresh (gap, kept)
    = (gap + Z.of_nat (length fresh), kept ++ fresh).
Proof.
  induction fresh as [|x fresh IH]; intros gap kept Hunused Hlen.
  - cbn [fold_left length]. rewrite app_nil_r. f_equal. lia.
  - cbn [fold_left]. unfold Electrum.gapStep at 2. cbn [fst snd].
    cbn [length] in Hlen.
    destruct (gap >=? gapLimit) eqn:Hgap; [apply Z.geb_le in Hgap; lia|].
    rewrite (Hunused x) by (left; reflexivity).
    rewrite IH; [|intros y Hy; apply Hunused; now right | lia].
    rewrite <- app_assoc. cbn [length]. f_equal. lia.
Qed.

(** As long as the gap limit is not reached, the filter keeps every unused
    address, and the counter is the number of unused addresses after the last
    used one. *)
Lemma gapFilter_below_limit (gapLimit : Z) (external : list Electrum.BtcAddressInfo) :
  (Electrum.gapFilter gapLimit external).1 < gapLimit →
  (Electrum.gapFilter gapLimit external).2
    = List.filter (fun x => negb (Electrum.used x)) external
  ∧ ∃ before after,
      external = before ++ after
      ∧ (∀ x, In x after → Electrum.used x = false)
      ∧ (Electrum.gapFilter gapLimit external).1 = Z.of_nat (length after)
      ∧ (before = [] ∨ ∃ before' u, before = before' ++ [u] ∧ Electrum.used u = true).
Proof.
  unfold Electrum.gapFilter.
  induction external as [|x external IH] using rev_ind.
  - intros _. split; [reflexivity|]. exists [], [].
    split; [reflexivity|]. split; [intros x []|]. split; [reflexivity | now left].
  - rewrite fold_left_app. cbn [fold_left].
    destruct (fold_left (Electrum.gapStep gapLimit) external (0, [])) as [gap kept].
    unfold Electrum.gapStep. cbn [fst snd] in *.
    destruct (gap >=? gapLimit) eqn:Hgap; cbn [fst snd].
    { apply Z.geb_le in Hgap. lia. }
    rewrite Z.geb_leb in Hgap. apply Z.leb_gt in Hgap.
    destruct (IH ltac:(lia)) as (Hkept & before & after & Hsplit & Hafter & Hlen & Hbefore).
    rewrite List.filter_app. cbn [List.filter].
    destruct (Electrum.used x) eqn:Hx; cbn [fst snd negb]; intros Hlimit.
    + split; [now rewrite app_nil_r|].
      exists (external ++ [x]), []. rewrite app_nil_r.
      split; [reflexivity|]. split; [intros y []|]. split; [reflexivity|].
      right. exists external, x. auto.
    + split; [now rewrite Hkept|].
      exists before, (after ++ [x]). split; [now rewrite Hsplit, <- app_assoc|].
      split; [|split; [|assumption]].
      * intros y Hy. apply in_app_or in Hy as [Hy|[<-|[]]]; auto.
      * rewrite length_app. cbn [length]. lia.
Qed.

Lemma gapFilter_kept (gapLimit : Z) (external : list Electrum.BtcAddressInfo) :
  sublist (Electrum.gapFilter gapLimit external).2
    (List.filter (fun x => negb (Electrum.used x)) external)
  ∧ 0 <= (Electrum.gapFilter gapLimit external).1
         <= Z.of_nat (length (Electrum.gapFilter gapLimit external).2)
  ∧ ((Electrum.gapFilter gapLimit external).1 <= gapLimit
     ∨ (Electrum.gapFilter gapLimit external).1 = 0).
Proof.
  unfold Electrum.gapFilter.
  induction external as [|x external IH] using rev_ind.
  - cbn. split; [constructor | lia].
  - rewrite fold_left_app, List.filter_app. cbn [fold_left List.filter].
    destruct (fold_left (Electrum.gapStep gapLimit) external (0, [])) as [gap kept].
    unfold Electrum.gapStep. cbn [fst snd] in *.
    destruct IH as (Hsub & Hgap & Hlimit).
    destruct (gap >=? gapLimit) eqn:Hge; cbn [fst snd].
    { split; [|split; assumption]. now apply sublist_inserts_r. }
    rewrite Z.geb_leb in Hge. apply Z.leb_gt in Hge.
    destruct (Electrum.used x); cbn [fst snd negb].
    + rewrite app_nil_r. split; [assumption|]. split; [lia | now right].
    + split; [now apply sublist_app|]. rewrite length_app. cbn [length].
      split; [lia | left; lia].
Qed.

Lemma sublist_map {A B : Type} (f : A → B) (l1 l2 : list A) :
  sublist l1 l2 → sublist (map f l1) (map f l2).
Proof. induction 1; cbn [map]; constructor; assumption. Qed.

(** The addresses returned by [unusedExternalAddresses] are addresses
    without transaction output, in the order of the address set. When
    addresses are asked from the Hub, their number is at least one and at most
    the gap limit, every unused address was returned, and the number asked
    for and the number of unused addresses after the last used one add up to
    the gap limit. When none is asked for, at least as many addresses as the
    gap limit are returned. *)
Theorem unused_addresses_up_to_the_gap_limit gapLimit external addrs request :
  Electrum.unusedExternalAddresses gapLimit false external = Some (addrs, request) →
  external ≠ []
  ∧ sublist addrs
      (map Electrum.address (List.filter (fun x => negb (Electrum.used x)) external))
  ∧ match request with
    | Some count =>
        1 <= count <= gapLimit
        ∧ addrs = map Electrum.address
                    (List.filter (fun x => negb (Electrum.used x)) external)
        ∧ ∃ before after,
            external = before ++ after
            ∧ (∀ x, In x after → Electrum.txoCount x = 0)
            ∧ (before = [] ∨ ∃ before' u, before = before' ++ [u] ∧ Electrum.txoCount u ≠ 0)
            ∧ count + Z.of_nat (length after) = gapLimit
    | None => gapLimit <= Z.of_nat (length addrs)
    end.
Proof.
  unfold Electrum.unusedExternalAddresses.
  destruct external as [|x0 external0] eqn:Hext; [discriminate|].
  rewrite <- Hext. replace (Nat.eqb (length external) 0) with false by now rewrite Hext.
  cbn zeta. intros [= <- <-].
  destruct (gapFilter_kept gapLimit external) as (Hsub & Hgap & Hlimit).
  split; [rewrite Hext; discriminate|].
  split; [now apply sublist_map|].
  destruct ((Electrum.gapFilter gapLimit external).1 <? gapLimit) eqn:Hlt.
  - apply Z.ltb_lt in Hlt.
    destruct (gapFilter_below_limit gapLimit external Hlt)
      as (Hkept & before & after & Hsplit & Hafter & Hlen & Hbefore).
    split; [lia|]. split; [now rewrite Hkept|].
    exists before, after. split; [assumption|].
    assert (Hused : ∀ u, Electrum.used u = negb (Electrum.txoCount u =? 0)) by reflexivity.
    split; [|split; [|lia]].
    + intros y Hy. apply Hafter in Hy. rewrite Hused in Hy.
      apply negb_false_iff, Z.eqb_eq in Hy. exact Hy.
    + destruct Hbefore as [->|(before' & u & -> & Hu)]; [now left|].
      right. exists before', u. split; [reflexivity|].
      rewrite Hused in Hu. apply negb_true_iff, Z.eqb_neq in Hu. exact Hu.
  - apply Z.ltb_ge in Hlt. rewrite length_map. lia.
Qed.

(** Two unused addresses after a used one, for a gap limit of 5. *)
Lemma unused_addresses_up_to_the_gap_limit_witness :
  [{| Electrum.address := "bc1-0"; Electrum.txoCount := 2 |};
   {| Electrum.address := "bc1-1"; Electrum.txoCount := 0 |};
   {| Electrum.address := "bc1-2"; Electrum.txoCount := 0 |}] ≠ []
  ∧ sublist ["bc1-1"; "bc1-2"]
      (map Electrum.address
         (List.filter (fun x => negb (Electrum.used x))
            [{| Electrum.address := "bc1-0"; Electrum.txoCount := 2 |};
             {| Electrum.address := "bc1-1"; Electrum.txoCount := 0 |};
             {| Electrum.address := "bc1-2"; Electrum.txoCount := 0 |}]))
  ∧ 1 <= 3 <= 5.
Proof.
  pose proof (unused_addresses_up_to_the_gap_limit 5
                [{| Electrum.address := "bc1-0"; Electrum.txoCount := 2 |};
                 {| Electrum.address := "bc1-1"; Electrum.txoCount := 0 |};
                 {| Electrum.address := "bc1-2"; Electrum.txoCount := 0 |}]
                ["bc1-1"; "bc1-2"] (Some 3) eq_refl) as (Hne & Hsub & Hcount & _).
  exact (conj Hne (conj Hsub Hcount)).
Defined.

(** Asking reaches the gap limit: once the Hub has appended the number of
    unused addresses that was asked for, the computed list is the previous one
    followed by the new addresses, and no more addresses are asked for. *)
Theorem asked_addresses_fill_the_gap gapLimit external addrs count fresh :
  Electrum.unusedExternalAddresses gapLimit false external = Some (addrs, Some count) →
  Z.of_nat (length fresh) = count →
  (∀ x, In x fresh → Electrum.txoCount x = 0) →
  Electrum.unusedExternalAddresses gapLimit false (external ++ fresh)
  = Some (addrs ++ map Electrum.address fresh, None).
Proof.
  unfold Electrum.unusedExternalAddresses.
  destruct external as [|x0 external0] eqn:Hext; [discriminate|].
  rewrite <- Hext.
  replace (Nat.eqb (length external) 0) with false by now rewrite Hext.
  replace (Nat.eqb (length (external ++ fresh)) 0) with false by now rewrite Hext.
  cbn zeta. intros Hres Hlen Hfresh.
  destruct ((Electrum.gapFilter gapLimit external).1 <? gapLimit) eqn:Hlt; [|discriminate].
  injection Hres as <- <-.
  unfold Electrum.gapFilter in *. rewrite fold_left_app.
  destruct (fold_left (Electrum.gapStep gapLimit) external (0, [])) as [gap kept].
  cbn [fst snd] in *.
  rewrite gapStep_fresh; [|intros x Hx; unfold Electrum.used; now rewrite (Hfresh x Hx) | lia].
  cbn [fst snd]. rewrite List.map_app.
  replace (gap + Z.of_nat (length fresh) <? gapLimit) with false
    by (symmetry; apply Z.ltb_ge; lia).
  reflexivity.
Qed.

(** After one used address and a gap limit of 3: three new addresses. *)
Lemma asked_addresses_fill_the_gap_witness :
  Electrum.unusedExternalAddresses 3 false
    ([{| Electrum.address := "bc1-0"; Electrum.txoCount := 1 |}]
     ++ [{| Electrum.address := "bc1-1"; Electrum.txoCount := 0 |};
         {| Electrum.address := "bc1-2"; Electrum.txoCount := 0 |};
         {| Electrum.address := "bc1-3"; Electrum.txoCount := 0 |}])
  = Some ([] ++ map Electrum.address
                  [{| Electrum.address := "bc1-1"; Electrum.txoCount := 0 |};
                   {| Electrum.address := "bc1-2"; Electrum.txoCount := 0 |};
                   {| Electrum.address := "bc1-3"; Electrum.txoCount := 0 |}], None).
Proof.
  apply (asked_addresses_fill_the_gap 3
           [{| Electrum.address := "bc1-0"; Electrum.txoCount := 1 |}] [] 3).
  - reflexivity.
  - reflexivity.
  - intros x [<-|[<-|[<-|[]]]]; reflexivity.
Defined.

(** ** Used external addresses and the next change address *)

Lemma reused_fold (gapLimit : Z) (infos : list Electrum.BtcAddressInfo) :
  let addrs := fold_left (Electrum.reusedStep gapLimit) infos [] in
  let usedAddresses := map Electrum.address (List.filter Electrum.used infos) in
  sublist addrs usedAddresses
  ∧ firstn (Z.to_nat (gapLimit * 2)) addrs = firstn (Z.to_nat (gapLimit * 2)) usedAddresses
  ∧ ∀ x, In x infos → Electrum.txoCount x > 1 → In (Electrum.address x) addrs.
Proof.
  cbn zeta. induction infos as [|x infos IH] using rev_ind.
  - cbn. split; [constructor|]. split; [reflexivity | intros x []].
  - rewrite fold_left_app, List.filter_app, List.map_app. cbn [fold_left List.filter].
    destruct IH as (Hsub & Hfirst & Hmulti).
    set (addrs := fold_left (Electrum.reusedStep gapLimit) infos []) in *.
    set (usedAddresses := map Electrum.address (List.filter Electrum.used infos)) in *.
    pose proof (sublist_length _ _ Hsub) as Hlen.
    unfold Electrum.reusedStep.
    assert (Hx1 : Electrum.txoCount x > 1 → Electrum.used x = true).
    { unfold Electrum.used. intros H. apply negb_true_iff, Z.eqb_neq. lia. }
    destruct (Electrum.used x) eqn:Hused; cbn [negb map app].
    + destruct (Z.of_nat (length addrs) <? gapLimit * 2) eqn:Hroom; cbn [orb].
      * apply Z.ltb_lt in Hroom.
        assert (Hall : addrs = usedAddresses).
        { assert (Ha : firstn (Z.to_nat (gapLimit * 2)) addrs = addrs)
            by (apply firstn_all2; lia).
          rewrite Ha in Hfirst.
          assert (Hl : length usedAddresses = length addrs).
          { apply (f_equal (@length string)) in Hfirst.
            rewrite length_firstn in Hfirst. lia. }
          rewrite Hfirst. apply firstn_all2. lia. }
        rewrite Hall. split; [reflexivity|]. split; [reflexivity|].
        intros y Hy Hcount. apply in_or_app.
        apply in_app_or in Hy as [Hy|[<-|[]]]; [left | right; now left].
        rewrite <- Hall. now apply Hmulti.
      * apply Z.ltb_ge in Hroom.
        assert (Hfull : ∀ (l : list string) a,
                  (Z.to_nat (gapLimit * 2) <= length l)%nat →
                  firstn (Z.to_nat (gapLimit * 2)) (l ++ [a])
                  = firstn (Z.to_nat (gapLimit * 2)) l).
        { intros l a Hl. rewrite firstn_app.
          replace (Z.to_nat (gapLimit * 2) - length l)%nat with 0%nat by lia.
          cbn [firstn]. apply app_nil_r. }
        destruct (Electrum.txoCount x >? 1) eqn:Hcount.
        -- split; [now apply sublist_app|].
           split; [rewrite !Hfull by lia; assumption|].
           intros y Hy Hy1. apply in_or_app.
           apply in_app_or in Hy as [Hy|[<-|[]]]; [left; now apply Hmulti | right; now left].
        -- split; [now apply sublist_inserts_r|].
           split; [rewrite Hfull by lia; assumption|].
           intros y Hy Hy1. apply in_app_or in Hy as [Hy|[<-|[]]]; [now apply Hmulti|].
           rewrite Z.gtb_ltb in Hcount. apply Z.ltb_ge in Hcount. lia.
    + rewrite app_nil_r. split; [assumption|]. split; [assumption|].
      intros y Hy Hy1. apply in_app_or in Hy as [Hy|[<-|[]]]; [now apply Hmulti|].
      specialize (Hx1 Hy1). congruence.
Qed.

(** [maybeReusedExternalAddresses] returns used addresses only, from the
    most recent one on. The most recent ones, up to twice the gap limit, are
    all returned, and so is every address with more than one transaction
    output, however old. *)
Theorem recently_and_repeatedly_used_addresses gapLimit external addrs :
  Electrum.maybeReusedExternalAddresses gapLimit false external = Some addrs →
  sublist addrs (map Electrum.address (List.filter Electrum.used (rev external)))
  ∧ firstn (Z.to_nat (gapLimit * 2)) addrs
    = firstn (Z.to_nat (gapLimit * 2))
        (map Electrum.address (List.filter Electrum.used (rev external)))
  ∧ (∀ x, In x external → Electrum.txoCount x > 1 → In (Electrum.address x) addrs)
  ∧ (Z.of_nat (length (List.filter Electrum.used external)) <= gapLimit * 2 →
     addrs = map Electrum.address (List.filter Electrum.used (rev external))).
Proof.
  unfold Electrum.maybeReusedExternalAddresses.
  destruct (Nat.eqb (length external) 0); [discriminate|]. intros [= <-].
  destruct (reused_fold gapLimit (rev external)) as (Hsub & Hfirst & Hmulti). cbn zeta in *.
  split; [assumption|]. split; [assumption|]. split.
  - intros x Hx. apply Hmulti. now apply in_rev in Hx.
  - intros Hfew.
    assert (Hlen : length (List.filter Electrum.used (rev external))
                   = length (List.filter Electrum.used external)).
    { clear. induction external as [|x l IH]; [reflexivity|].
      cbn [rev List.filter]. rewrite List.filter_app, length_app, IH. cbn [List.filter].
      destruct (Electrum.used x); cbn [length]; lia. }
    pose proof (sublist_length _ _ Hsub) as Hle. rewrite length_map in Hle.
    rewrite !firstn_all2 in Hfirst; [assumption | rewrite length_map; lia | lia].
Qed.

(** Three used addresses for a gap limit of 1: the two most recent ones,
    and the oldest one, which was used twice. *)
Lemma recently_and_repeatedly_used_addresses_witness :
  firstn (Z.to_nat (1 * 2)) ["bc1-3"; "bc1-2"; "bc1-0"]
  = firstn (Z.to_nat (1 * 2))
      (map Electrum.address
         (List.filter Electrum.used
            (rev [{| Electrum.address := "bc1-0"; Electrum.txoCount := 2 |};
                  {| Electrum.address := "bc1-1"; Electrum.txoCount := 1 |};
                  {| Electrum.address := "bc1-2"; Electrum.txoCount := 1 |};
                  {| Electrum.address := "bc1-3"; Electrum.txoCount := 1 |}]))).
Proof.
  exact (proj1 (proj2 (recently_and_repeatedly_used_addresses 1
           [{| Electrum.address := "bc1-0"; Electrum.txoCount := 2 |};
            {| Electrum.address := "bc1-1"; Electrum.txoCount := 1 |};
            {| Electrum.address := "bc1-2"; Electrum.txoCount := 1 |};
            {| Electrum.address := "bc1-3"; Electrum.txoCount := 1 |}]
           ["bc1-3"; "bc1-2"; "bc1-0"] eq_refl))).
Defined.

(** The next change address is the first address of the internal chain
    without transaction output: every address before it was used. New
    addresses are asked from the Hub exactly when at most two unused
    addresses are left, and so whenever there is no unused address at all. *)
Theorem next_change_address_is_first_unused internal next more :
  Electrum.nextUnusedChangeAddress false internal = Some (next, more) →
  internal ≠ []
  ∧ (more = true ↔
       (length (List.filter (fun x => negb (Electrum.used x)) internal) <= 2)%nat)
  ∧ match next with
    | Some a =>
        ∃ before x after,
          internal = before ++ x :: after
          ∧ Electrum.address x = a
          ∧ Electrum.txoCount x = 0
          ∧ ∀ y, In y before → Electrum.txoCount y ≠ 0
    | None => more = true ∧ ∀ y, In y internal → Electrum.txoCount y ≠ 0
    end.
Proof.
  unfold Electrum.nextUnusedChangeAddress.
  destruct internal as [|x0 internal0] eqn:Hint; [discriminate|].
  rewrite <- Hint. replace (Nat.eqb (length internal) 0) with false by now rewrite Hint.
  cbn zeta. intros [= <- <-].
  split; [rewrite Hint; discriminate|]. rewrite length_map.
  split; [apply Nat.leb_le|].
  assert (Hused : ∀ u, Electrum.used u = negb (Electrum.txoCount u =? 0)) by reflexivity.
  clear Hint. induction internal as [|x internal IH].
  - cbn. split; [reflexivity | intros y []].
  - cbn [List.filter]. destruct (Electrum.used x) eqn:Hx; cbn [negb map head].
    + rewrite Hused in Hx. apply negb_true_iff, Z.eqb_neq in Hx.
      destruct (head (map Electrum.address
                  (List.filter (fun x => negb (Electrum.used x)) internal))) as [a|].
      * destruct IH as (before & u & after & -> & Ha & Hu & Hbefore).
        exists (x :: before), u, after. split; [reflexivity|].
        split; [assumption|]. split; [assumption|].
        intros y [<-|Hy]; auto.
      * destruct IH as (Hmore & Hall). split; [exact Hmore|].
        intros y [<-|Hy]; auto.
    + rewrite Hused in Hx. apply negb_false_iff, Z.eqb_eq in Hx.
      exists [], x, internal. split; [reflexivity|]. split; [reflexivity|].
      split; [assumption | intros y []].
Qed.

(** A used change address followed by an unused one. *)
Lemma next_change_address_is_first_unused_witness :
  ∃ before x after,
    [{| Electrum.address := "bc1-c0"; Electrum.txoCount := 1 |};
     {| Electrum.address := "bc1-c1"; Electrum.txoCount := 0 |}] = before ++ x :: after
    ∧ Electrum.address x = "bc1-c1"
    ∧ Electrum.txoCount x = 0
    ∧ ∀ y, In y before → Electrum.txoCount y ≠ 0.
Proof.
  exact (proj2 (proj2 (next_change_address_is_first_unused
           [{| Electrum.address := "bc1-c0"; Electrum.txoCount := 1 |};
            {| Electrum.address := "bc1-c1"; Electrum.txoCount := 0 |}]
           (Some "bc1-c1") true eq_refl))).
Defined.
